(** * Surfshark server-list updater (internal/updater/surfshark.go)

    A shallow embedding of the updater of the Surfshark server list and
    the properties of its reconciliation between the hosts found in the
    provider's archive and the static subdomain-to-region table.

    Go maps are [gmap]s; the order in which a [range] statement visits a
    map is not fixed by the language, so it is supplied by the
    environment (one order per [range] statement of the source).  Go
    strings are byte strings and are modelled by [string]. *)

From Stdlib Require Import ZArith String Ascii List.
From stdpp Require Import base gmap list strings sorting.

Local Open Scope string_scope.
Local Open Scope list_scope.

(** ** The parts of Go's standard library the file uses *)

Module GoStrings.

(** [strings.HasSuffix]:
    [len(s) >= len(suffix) && s[len(s)-len(suffix):] == suffix]. *)
Definition HasSuffix (s suffix : string) : bool :=
  (String.length suffix <=? String.length s)%nat &&
  String.eqb
    (substring (String.length s - String.length suffix) (String.length suffix) s)
    suffix.

(** [strings.TrimSuffix]: [s] without the suffix when it has it, else [s]. *)
Definition TrimSuffix (s suffix : string) : string :=
  if HasSuffix s suffix
  then substring 0 (String.length s - String.length suffix) s
  else s.

End GoStrings.

(** Go's [error] values: a plain message, or a message wrapping another
    error ([fmt.Errorf] with the verb [%w]). *)
Inductive error : Type :=
  | errorString (msg : string)
  | wrapError (msg : string) (err : error).

Definition Error (e : error) : string :=
  match e with
  | errorString msg => msg
  | wrapError msg _ => msg
  end.

Definition Unwrap (e : error) : option error :=
  match e with
  | errorString _ => None
  | wrapError _ err => Some err
  end.

(** [fmt.Errorf(prefix + "%w", err)]. *)
Definition fmt_Errorf_w (prefix : string) (err : error) : error :=
  wrapError (prefix +:+ Error err) err.

(** [sort.Slice]: the insertion sort Go runs on short slices.  Each
    element, from left to right, moves towards the front while it is
    [less] than its left neighbour; [bubble] works on the sorted prefix
    held in reverse.  (On longer slices Go switches to a quicksort, which
    may order elements with equal keys differently.) *)
Fixpoint bubble {A : Type} (less : A → A → bool) (x : A) (rprefix : list A) : list A :=
  match rprefix with
  | [] => [x]
  | y :: rest => if less x y then y :: bubble less x rest else x :: rprefix
  end.

Definition sort_Slice {A : Type} (less : A → A → bool) (data : list A) : list A :=
  rev (foldl (λ rprefix x, bubble less x rprefix) [] data).

(** [time.Second], a [time.Duration] in nanoseconds. *)
Definition time_Second : Z := 1000000000.

(** ** Data model *)

(** [net.IP] is a byte slice. *)
Definition IP : Type := list N.

(** [models.SurfsharkServer]. *)
Record SurfsharkServer : Type := {
  Region : string;
  IPs : list IP;
}.

(** [bytes.Compare]. *)
Fixpoint bytes_Compare (a b : list N) : comparison :=
  match a, b with
  | [], [] => Eq
  | [], _ :: _ => Lt
  | _ :: _, [] => Gt
  | x :: a', y :: b' =>
      match N.compare x y with
      | Eq => bytes_Compare a' b'
      | c => c
      end
  end.

Fixpoint insertIP (ip : IP) (ips : list IP) : list IP :=
  match ips with
  | [] => [ip]
  | x :: rest =>
      match bytes_Compare ip x with
      | Lt => ip :: ips
      | Eq => ips
      | Gt => x :: insertIP ip rest
      end
  end.

(** Modelled from the spec: [uniqueSortedIPs] is called by this file but
    defined elsewhere in the package.  The spec gives its result: "the
    Server's recorded IP set equals the sorted set of distinct
    addresses". *)
Definition uniqueSortedIPs (ips : list IP) : list IP :=
  foldr insertIP [] ips.

(** The [range] statements of the file, in source order. *)
Inductive rangeSite : Type :=
  | RangeContents      (* for fileName, content := range contents *)
  | RangeHostToIPs     (* for host, IPs := range hostToIPs, archive pass *)
  | RangeMapping       (* for subdomain := range mapping *)
  | RangeRemaining.    (* for host, IPs := range hostToIPs, table pass *)

(** What the file gets from the rest of the package and from the Go
    runtime.  [fetchAndExtractFiles], [extractHostFromOVPN] and
    [parallelResolve] are functions of the package defined in other
    files; they reach the network, so they are parameters here, with the
    types of their Go signatures.  [mapRange site m] is the order in which
    the [range] statement [site] visits [m]: some enumeration of its
    entries. *)
Class Collaborators : Type := {
  context_Context : Type;
  http_Client : Type;
  lookupIPFunc : Type;
  fetchAndExtractFiles :
    context_Context → http_Client → string → gmap string string * option error;
  extractHostFromOVPN : string → string * string * option error;
  parallelResolve :
    context_Context → lookupIPFunc → list string → Z → Z → bool →
    gmap string (list IP) * list string * option error;
  (** [fmt]'s verb [%q] on a string. *)
  fmt_q : string → string;
  (** [models.SurfsharkServer.String]. *)
  SurfsharkServer_String : SurfsharkServer → string;
  mapRange : rangeSite → ∀ V : Type, gmap string V → list (string * V);
  mapRange_perm :
    ∀ site (V : Type) (m : gmap string V), mapRange site V m ≡ₚ map_to_list m;
}.

Arguments mapRange {_} site {V} m.

(** ** The static table *)

Definition surfsharkTable : list (string * string) := [
    ("ae-dub",       "United Arab Emirates");
    ("al-tia",       "Albania");
    ("at-vie",       "Austria");
    ("au-adl",       "Australia Adelaide");
    ("au-bne",       "Australia Brisbane");
    ("au-mel",       "Australia Melbourne");
    ("au-per",       "Australia Perth");
    ("au-syd",       "Australia Sydney");
    ("au-us",        "Australia US");
    ("az-bak",       "Azerbaijan");
    ("ba-sjj",       "Bosnia and Herzegovina");
    ("be-bru",       "Belgium");
    ("bg-sof",       "Bulgaria");
    ("br-sao",       "Brazil");
    ("ca-mon",       "Canada Montreal");
    ("ca-tor",       "Canada Toronto");
    ("ca-us",        "Canada US");
    ("ca-van",       "Canada Vancouver");
    ("ch-zur",       "Switzerland");
    ("cl-san",       "Chile");
    ("co-bog",       "Colombia");
    ("cr-sjn",       "Costa Rica");
    ("cy-nic",       "Cyprus");
    ("cz-prg",       "Czech Republic");
    ("de-ber",       "Germany Berlin");
    ("de-fra",       "Germany Frankfurt am Main");
    ("de-fra-st001", "Germany Frankfurt am Main st001");
    ("de-fra-st002", "Germany Frankfurt am Main st002");
    ("de-fra-st003", "Germany Frankfurt am Main st003");
    ("de-fra-st004", "Germany Frankfurt am Main st004");
    ("de-fra-st005", "Germany Frankfurt am Main st005");
    ("de-muc",       "Germany Munich");
    ("de-nue",       "Germany Nuremberg");
    ("de-sg",        "Germany Singapour");
    ("de-uk",        "Germany UK");
    ("dk-cph",       "Denmark");
    ("ee-tll",       "Estonia");
    ("es-bcn",       "Spain Barcelona");
    ("es-mad",       "Spain Madrid");
    ("es-vlc",       "Spain Valencia");
    ("fi-hel",       "Finland");
    ("fr-bod",       "France Bordeaux");
    ("fr-mrs",       "France Marseilles");
    ("fr-par",       "France Paris");
    ("fr-se",        "France Sweden");
    ("gr-ath",       "Greece");
    ("hk-hkg",       "Hong Kong");
    ("hr-zag",       "Croatia");
    ("hu-bud",       "Hungary");
    ("id-jak",       "Indonesia");
    ("ie-dub",       "Ireland");
    ("il-tlv",       "Israel");
    ("in-chn",       "India Chennai");
    ("in-idr",       "India Indore");
    ("in-mum",       "India Mumbai");
    ("in-uk",        "India UK");
    ("is-rkv",       "Iceland");
    ("it-mil",       "Italy Milan");
    ("it-rom",       "Italy Rome");
    ("jp-tok",       "Japan Tokyo");
    ("jp-tok-st001", "Japan Tokyo st001");
    ("jp-tok-st002", "Japan Tokyo st002");
    ("jp-tok-st003", "Japan Tokyo st003");
    ("jp-tok-st004", "Japan Tokyo st004");
    ("jp-tok-st005", "Japan Tokyo st005");
    ("jp-tok-st006", "Japan Tokyo st006");
    ("jp-tok-st007", "Japan Tokyo st007");
    ("jp-tok-st008", "Japan Tokyo st008");
    ("jp-tok-st009", "Japan Tokyo st009");
    ("jp-tok-st010", "Japan Tokyo st010");
    ("jp-tok-st011", "Japan Tokyo st011");
    ("jp-tok-st012", "Japan Tokyo st012");
    ("jp-tok-st013", "Japan Tokyo st013");
    ("kr-seo",       "Korea");
    ("kz-ura",       "Kazakhstan");
    ("lu-ste",       "Luxembourg");
    ("lv-rig",       "Latvia");
    ("ly-tip",       "Libya");
    ("md-chi",       "Moldova");
    ("mk-skp",       "North Macedonia");
    ("my-kul",       "Malaysia");
    ("ng-lag",       "Nigeria");
    ("nl-ams",       "Netherlands Amsterdam");
    ("nl-ams-st001", "Netherlands Amsterdam st001");
    ("nl-us",        "Netherlands US");
    ("no-osl",       "Norway");
    ("nz-akl",       "New Zealand");
    ("ph-mnl",       "Philippines");
    ("pl-gdn",       "Poland Gdansk");
    ("pl-waw",       "Poland Warsaw");
    ("pt-lis",       "Portugal Lisbon");
    ("pt-lou",       "Portugal Loule");
    ("pt-opo",       "Portugal Porto");
    ("py-asu",       "Paraguay");
    ("ro-buc",       "Romania");
    ("rs-beg",       "Serbia");
    ("ru-mos",       "Russia Moscow");
    ("ru-spt",       "Russia St. Petersburg");
    ("se-sto",       "Sweden");
    ("sg-hk",        "Singapore Hong Kong");
    ("sg-nl",        "Singapore Netherlands");
    ("sg-sng",       "Singapore");
    ("sg-in",        "Singapore in");
    ("sg-sng-st001", "Singapore st001");
    ("sg-sng-st002", "Singapore st002");
    ("sg-sng-st003", "Singapore st003");
    ("sg-sng-st004", "Singapore st004");
    ("sg-sng-mp001", "Singapore mp001");
    ("si-lju",       "Slovenia");
    ("sk-bts",       "Slovekia");
    ("th-bkk",       "Thailand");
    ("tr-bur",       "Turkey");
    ("tw-tai",       "Taiwan");
    ("ua-iev",       "Ukraine");
    ("uk-de",        "UK Germany");
    ("uk-fr",        "UK France");
    ("uk-gla",       "UK Glasgow");
    ("uk-lon",       "UK London");
    ("uk-lon-mp001", "UK London mp001");
    ("uk-lon-st001", "UK London st001");
    ("uk-lon-st002", "UK London st002");
    ("uk-lon-st003", "UK London st003");
    ("uk-lon-st004", "UK London st004");
    ("uk-lon-st005", "UK London st005");
    ("uk-man",       "UK Manchester");
    ("us-atl",       "US Atlanta");
    ("us-bdn",       "US Bend");
    ("us-bos",       "US Boston");
    ("us-buf",       "US Buffalo");
    ("us-chi",       "US Chicago");
    ("us-clt",       "US Charlotte");
    ("us-dal",       "US Dallas");
    ("us-den",       "US Denver");
    ("us-dtw",       "US Gahanna");
    ("us-hou",       "US Houston");
    ("us-kan",       "US Kansas City");
    ("us-las",       "US Las Vegas");
    ("us-lax",       "US Los Angeles");
    ("us-ltm",       "US Latham");
    ("us-mia",       "US Miami");
    ("us-mnz",       "US Maryland");
    ("us-nl",        "US Netherlands");
    ("us-nyc",       "US New York City");
    ("us-nyc-mp001", "US New York City mp001");
    ("us-nyc-st001", "US New York City st001");
    ("us-nyc-st002", "US New York City st002");
    ("us-nyc-st003", "US New York City st003");
    ("us-nyc-st004", "US New York City st004");
    ("us-nyc-st005", "US New York City st005");
    ("us-orl",       "US Orlando");
    ("us-phx",       "US Phoenix");
    ("us-pt",        "US Portugal");
    ("us-sea",       "US Seatle");
    ("us-sfo",       "US San Francisco");
    ("us-slc",       "US Salt Lake City");
    ("us-stl",       "US Saint Louis");
    ("us-tpa",       "US Tampa");
    ("vn-hcm",       "Vietnam");
    ("za-jnb",       "South Africa");
    ("ar-bua",       "Argentina Buenos Aires");
    ("tr-ist",       "Turkey Istanbul");
    ("mx-mex",       "Mexico City Mexico");
    ("ca-tor-mp001", "Canada Toronto mp001");
    ("de-fra-mp001", "Germany Frankfurt mp001");
    ("nl-ams-mp001", "Netherlands Amsterdam mp001");
    ("us-sfo-mp001", "US San Francisco mp001")
  ].

Definition surfsharkSubdomainToRegion : gmap string string :=
  list_to_map surfsharkTable.

(** ** The updater *)

Section Updater.
Context `{Collaborators}.

Definition domainSuffix : string := ".prod.surfshark.com".

(** Body of the loop over the archive's files; the state is
    [(hosts, warnings)]. *)
Definition extractStep (st : list string * list string) (file : string * string)
  : list string * list string :=
  let '(hosts, warnings) := st in
  let '(fileName, content) := file in
  if GoStrings.HasSuffix fileName "_tcp.ovpn" then st (* only parse UDP files *)
  else
    let '(host, warning, err) := extractHostFromOVPN content in
    let warnings :=
      if (0 <? String.length warning)%nat then warnings ++ [warning] else warnings in
    match err with
    | Some err =>
        (* treat error as warning and go to next file *)
        (hosts, warnings ++ [Error err +:+ " in " +:+ fileName])
    | None => (hosts ++ [host], warnings)
    end.

(** State of the loop over the archive pass's resolution result. *)
Record reconcileState : Type := {
  st_mapping : gmap string string;
  st_servers : list SurfsharkServer;
  st_warnings : list string;
}.

Definition reconcileStep (st : reconcileState) (entry : string * list IP)
  : reconcileState :=
  let '(host, ips) := entry in
  if (length ips =? 0)%nat then
    {| st_mapping := st_mapping st;
       st_servers := st_servers st;
       st_warnings :=
         st_warnings st ++ ["no IP address found for host " +:+ fmt_q host] |}
  else
    let subdomain := GoStrings.TrimSuffix host domainSuffix in
    match st_mapping st !! subdomain with
    | Some region =>
        {| st_mapping := delete subdomain (st_mapping st);
           st_servers :=
             st_servers st ++ [{| Region := region; IPs := uniqueSortedIPs ips |}];
           st_warnings := st_warnings st |}
    | None =>
        {| st_mapping := st_mapping st;
           st_servers :=
             st_servers st ++
             [{| Region := GoStrings.TrimSuffix host domainSuffix;
                 IPs := uniqueSortedIPs ips |}];
           st_warnings :=
             st_warnings st ++
             ["subdomain " +:+ fmt_q subdomain +:+ " not found in Surfshark mapping"] |}
    end.

(** Body of the loop of [getRemainingServers]; a key missing from a Go
    map reads as the empty string. *)
Definition remainingStep (mapping : gmap string string)
    (servers : list SurfsharkServer) (entry : string * list IP)
  : list SurfsharkServer :=
  let '(host, ips) := entry in
  let subdomain := GoStrings.TrimSuffix host domainSuffix in
  servers ++
  [{| Region := default EmptyString (mapping !! subdomain); IPs := uniqueSortedIPs ips |}].

Definition getRemainingServers (ctx : context_Context)
    (mapping : gmap string string) (lookupIP : lookupIPFunc)
  : list SurfsharkServer * list string :=
  let hosts := (λ kv : string * string, kv.1 +:+ domainSuffix)
                 <$> mapRange RangeMapping mapping in
  let repetition := 20%Z in
  let timeBetween := time_Second in
  let failOnErr := false in
  let '(hostToIPs, warnings, _) :=
    parallelResolve ctx lookupIP hosts repetition timeBetween failOnErr in
  (foldl (remainingStep mapping) [] (mapRange RangeRemaining hostToIPs), warnings).

Definition zipURL : string :=
  "https://my.surfshark.com/vpn/api/v1/server/configurations".

Definition lessRegion (a b : SurfsharkServer) : bool :=
  String.ltb (Region a) (Region b).

Definition findSurfsharkServersFromZip (ctx : context_Context)
    (client : http_Client) (lookupIP : lookupIPFunc)
  : list SurfsharkServer * list string * option error :=
  let '(contents, err) := fetchAndExtractFiles ctx client zipURL in
  match err with
  | Some err => ([], [], Some err)
  | None =>
      let mapping := surfsharkSubdomainToRegion in
      let '(hosts, warnings) :=
        foldl extractStep ([], []) (mapRange RangeContents contents) in
      let repetition := 20%Z in
      let timeBetween := time_Second in
      let failOnErr := true in
      let '(hostToIPs, _, err) :=
        parallelResolve ctx lookupIP hosts repetition timeBetween failOnErr in
      match err with
      | Some err => ([], warnings, Some err)
      | None =>
          let st :=
            foldl reconcileStep
              {| st_mapping := mapping; st_servers := []; st_warnings := warnings |}
              (mapRange RangeHostToIPs hostToIPs) in
          (* process entries in mapping that were not in zip file *)
          let '(remainingServers, newWarnings) :=
            getRemainingServers ctx (st_mapping st) lookupIP in
          let warnings := st_warnings st ++ newWarnings in
          let servers := st_servers st ++ remainingServers in
          (sort_Slice lessRegion servers, warnings, None)
      end
  end.

Definition tab : string := String (ascii_of_nat 9) EmptyString.
Definition newline : string := String (ascii_of_nat 10) EmptyString.

Definition stringifySurfsharkServers (servers : list SurfsharkServer) : string :=
  let s := "func SurfsharkServers() []models.SurfsharkServer {" +:+ newline in
  let s := s +:+ tab +:+ "return []models.SurfsharkServer{" +:+ newline in
  let s :=
    foldl (λ s server,
             s +:+ tab +:+ tab +:+ SurfsharkServer_String server +:+ "," +:+ newline)
          s servers in
  let s := s +:+ tab +:+ "}" +:+ newline in
  s +:+ "}".

(** The fields of [updater] the file touches.  [logged] and [printed]
    are what has gone through [u.logger.Warn] and [u.println]. *)
Record updaterOptions : Type := { CLI : bool; Stdout : bool }.

Record SurfsharkServers : Type := {
  Timestamp : Z;
  Servers : list SurfsharkServer;
}.

Record updater : Type := {
  options : updaterOptions;
  client : http_Client;
  lookupIP : lookupIPFunc;
  timeNow_Unix : Z;              (* u.timeNow().Unix() *)
  servers_Surfshark : SurfsharkServers;
  logged : list string;
  printed : list string;
}.

Definition logger_Warn (u : updater) (line : string) : updater :=
  {| options := options u; client := client u; lookupIP := lookupIP u;
     timeNow_Unix := timeNow_Unix u; servers_Surfshark := servers_Surfshark u;
     logged := logged u ++ [line]; printed := printed u |}.

Definition println (u : updater) (line : string) : updater :=
  {| options := options u; client := client u; lookupIP := lookupIP u;
     timeNow_Unix := timeNow_Unix u; servers_Surfshark := servers_Surfshark u;
     logged := logged u; printed := printed u ++ [line] |}.

Definition storeSurfshark (u : updater) (s : SurfsharkServers) : updater :=
  {| options := options u; client := client u; lookupIP := lookupIP u;
     timeNow_Unix := timeNow_Unix u; servers_Surfshark := s;
     logged := logged u; printed := printed u |}.

(** [u.servers.Surfshark.Timestamp = t] and [u.servers.Surfshark.Servers = l]. *)
Definition setTimestamp (u : updater) (t : Z) : updater :=
  storeSurfshark u {| Timestamp := t; Servers := Servers (servers_Surfshark u) |}.

Definition setServers (u : updater) (l : list SurfsharkServer) : updater :=
  storeSurfshark u {| Timestamp := Timestamp (servers_Surfshark u); Servers := l |}.

Definition updateSurfshark (u : updater) (ctx : context_Context)
  : updater * option error :=
  let '(servers, warnings, err) :=
    findSurfsharkServersFromZip ctx (client u) (lookupIP u) in
  let u :=
    if CLI (options u)
    then foldl (λ u warning, logger_Warn u ("Surfshark: " +:+ warning)) u warnings
    else u in
  match err with
  | Some err => (u, Some (fmt_Errorf_w "cannot update Surfshark servers: " err))
  | None =>
      let u :=
        if Stdout (options u) then println u (stringifySurfsharkServers servers)
        else u in
      let u := setTimestamp u (timeNow_Unix u) in
      let u := setServers u servers in
      (u, None)
  end.

End Updater.

(** ** Notions used to state the properties *)

(** [a.Region <= b.Region], byte-wise lexicographic as in Go. *)
Definition regionLe (a b : SurfsharkServer) : Prop :=
  String.leb (Region a) (Region b) = true.

Section Observations.
Context `{Collaborators}.

(** The hostnames and the warnings the extraction loop produces on the
    files [files], visited in that order. *)
Definition extractHosts (files : list (string * string)) : list string :=
  (foldl extractStep ([], []) files).1.

Definition extractWarnings (files : list (string * string)) : list string :=
  (foldl extractStep ([], []) files).2.

(** The host of a file that is not a TCP variant and that the parser
    accepts. *)
Definition parsedHost (file : string * string) : option string :=
  if GoStrings.HasSuffix file.1 "_tcp.ovpn" then None
  else
    match extractHostFromOVPN file.2 with
    | (host, _, None) => Some host
    | (_, _, Some _) => None
    end.

(** The subdomain code of a hostname. *)
Definition codeOf (host : string) : string :=
  GoStrings.TrimSuffix host domainSuffix.

(** The server the archive pass builds for an entry with addresses when
    the working copy of the table is [mapping]: the table's name for the
    entry's code, or the code itself. *)
Definition archiveServer (mapping : gmap string string)
    (entry : string * list IP) : SurfsharkServer :=
  {| Region := default (codeOf entry.1) (mapping !! codeOf entry.1);
     IPs := uniqueSortedIPs entry.2 |}.

(** The server the table pass builds for an entry. *)
Definition remainingServer (mapping : gmap string string)
    (entry : string * list IP) : SurfsharkServer :=
  {| Region := default EmptyString (mapping !! codeOf entry.1);
     IPs := uniqueSortedIPs entry.2 |}.

Definition unmappedWarning (subdomain : string) : string :=
  "subdomain " +:+ fmt_q subdomain +:+ " not found in Surfshark mapping".

(** The subdomain codes of the entries that have addresses. *)
Definition liveCodes (entries : list (string * list IP)) : list string :=
  (λ entry, codeOf entry.1) <$> filter (λ entry, entry.2 ≠ []) entries.

(** A line of [u.logger.Warn("Surfshark: %s", warning)]. *)
Definition surfsharkLine (warning : string) : string := "Surfshark: " +:+ warning.

(** The hostnames of the archive, as handed to the strict resolver call. *)
Definition archiveHosts (ctx : context_Context) (client : http_Client)
  : list string :=
  extractHosts (mapRange RangeContents (fetchAndExtractFiles ctx client zipURL).1).

Definition archiveWarnings (ctx : context_Context) (client : http_Client)
  : list string :=
  extractWarnings (mapRange RangeContents (fetchAndExtractFiles ctx client zipURL).1).

(** The strict resolver call over the archive's hostnames. *)
Definition strictResolve (ctx : context_Context) (client : http_Client)
    (lookupIP : lookupIPFunc)
  : gmap string (list IP) * list string * option error :=
  parallelResolve ctx lookupIP (archiveHosts ctx client) 20 time_Second true.

(** The state at the end of the loop over the strict call's result. *)
Definition afterArchivePass (ctx : context_Context) (client : http_Client)
    (lookupIP : lookupIPFunc) : reconcileState :=
  foldl reconcileStep
    {| st_mapping := surfsharkSubdomainToRegion;
       st_servers := [];
       st_warnings := archiveWarnings ctx client |}
    (mapRange RangeHostToIPs (strictResolve ctx client lookupIP).1.1).

(** The hostnames [getRemainingServers] synthesizes from what is left of
    the table, and its best-effort resolver call over them. *)
Definition remainingHosts (mapping : gmap string string) : list string :=
  (λ kv : string * string, kv.1 +:+ domainSuffix) <$> mapRange RangeMapping mapping.

Definition bestEffortResolve (ctx : context_Context)
    (mapping : gmap string string) (lookupIP : lookupIPFunc)
  : gmap string (list IP) * list string * option error :=
  parallelResolve ctx lookupIP (remainingHosts mapping) 20 time_Second false.

End Observations.

(** ** A closed environment, to run the model *)

Module Fixture.

Definition errRemoteNotFound : error := errorString "remote host not found".
Definition ErrResolutionExhausted : error := errorString "resolution exhausted".
Definition context_Canceled : error := errorString "context canceled".

Definition dq : string := String (ascii_of_nat 34) EmptyString.
Definition quote (s : string) : string := dq +:+ s +:+ dq.

(** Stand-in for [extractHostFromOVPN]: a configuration file is the one
    line [remote <host>]; anything else has no host. *)
Definition parseRemote (content : string) : string * string * option error :=
  if String.prefix "remote " content
  then (substring 7 (String.length content - 7) content, EmptyString, None)
  else (EmptyString, EmptyString, Some errRemoteNotFound).

Definition noAddressWarning (host : string) : string :=
  "no IP address found for host " +:+ quote host.

(** Modelled from the spec: [parallelResolve] is defined in another file
    of the package.  The spec's contract, over a fixed set of DNS
    answers: the result maps "each input hostname to its resolved IP
    address set" (empty when the name never resolves); in strict mode
    "if any hostname ends its retry budget with zero resolved
    addresses, the call as a whole fails"; in best-effort mode "hosts
    that never resolve simply produce an empty IP set and a per-host
    warning". *)
Definition specResolve (dns : gmap string (list IP))
    (hosts : list string) (failOnErr : bool)
  : gmap string (list IP) * list string * option error :=
  let answer host := default [] (dns !! host) in
  let unresolved := filter (λ host, answer host = []) hosts in
  match failOnErr, unresolved with
  | true, _ :: _ => (∅, [], Some ErrResolutionExhausted)
  | _, _ =>
      (list_to_map ((λ host, (host, answer host)) <$> hosts),
       noAddressWarning <$> unresolved, None)
  end.

(** A resolver whose best-effort call is cut short by cancellation: it
    hands back what it had resolved, together with the error. *)
Definition cancelledResolve (dns partial : gmap string (list IP))
    (hosts : list string) (failOnErr : bool)
  : gmap string (list IP) * list string * option error :=
  if failOnErr then specResolve dns hosts true
  else (partial, [], Some context_Canceled).

Definition world (files : gmap string string)
    (resolver : list string → bool →
                gmap string (list IP) * list string * option error)
  : Collaborators :=
  {| context_Context := unit;
     http_Client := unit;
     lookupIPFunc := unit;
     fetchAndExtractFiles := λ _ _ _, (files, None);
     extractHostFromOVPN := parseRemote;
     parallelResolve := λ _ _ hosts _ _ failOnErr, resolver hosts failOnErr;
     fmt_q := quote;
     SurfsharkServer_String := λ s, "{Region: " +:+ quote (Region s) +:+ "}";
     mapRange := λ _ V m, map_to_list m;
     mapRange_perm := λ _ V m, reflexivity (map_to_list m) |}.

Definition ip (a b c d : N) : IP := [a; b; c; d].

(** An archive with one known server, one server the table does not
    know, the TCP variant of the first, and a file without host. *)
Definition mixedArchive : gmap string string :=
  list_to_map
    [("al-tia_udp.ovpn", "remote al-tia.prod.surfshark.com");
     ("al-tia_tcp.ovpn", "remote al-tia.prod.surfshark.com");
     ("zz-new_udp.ovpn", "remote zz-new.prod.surfshark.com");
     ("readme.ovpn", "no host here")].

Definition mixedDNS : gmap string (list IP) :=
  list_to_map
    [("al-tia.prod.surfshark.com", [ip 10 0 0 2; ip 10 0 0 1; ip 10 0 0 2]);
     ("zz-new.prod.surfshark.com", [ip 10 0 9 9]);
     ("at-vie.prod.surfshark.com", [ip 10 0 1 1])].

Definition mixedWorld : Collaborators := world mixedArchive (specResolve mixedDNS).

(** The same archive when the name of the unknown server has gone from
    the DNS: the strict call fails. *)
Definition outageWorld : Collaborators :=
  world mixedArchive
    (specResolve (list_to_map [("al-tia.prod.surfshark.com", [ip 10 0 0 1])])).

(** The same archive when the best-effort call is cancelled after it has
    resolved one name. *)
Definition cancelledWorld : Collaborators :=
  world mixedArchive
    (cancelledResolve mixedDNS
       (list_to_map [("at-vie.prod.surfshark.com", [ip 10 0 1 1])])).

(** Two UDP files that name the same host. *)
Definition twinArchive : gmap string string :=
  list_to_map
    [("al-tia_udp.ovpn", "remote al-tia.prod.surfshark.com");
     ("al-tia-bis_udp.ovpn", "remote al-tia.prod.surfshark.com")].

Definition twinWorld : Collaborators := world twinArchive (specResolve mixedDNS).

(** An archive that names one unknown server twice, once by its full
    name and once by its bare code. *)
Definition bareNameArchive : gmap string string :=
  list_to_map
    [("zz-new_udp.ovpn", "remote zz-new.prod.surfshark.com");
     ("zz-bare_udp.ovpn", "remote zz-new")].

Definition bareNameWorld : Collaborators :=
  world bareNameArchive
    (specResolve
       (list_to_map
          [("zz-new.prod.surfshark.com", [ip 10 0 9 9]);
           ("zz-new", [ip 10 0 9 8])])).

(** An archive whose unknown code is spelled like a region name of the
    table. *)
Definition homonymWorld : Collaborators :=
  world (list_to_map [("x_udp.ovpn", "remote Albania.prod.surfshark.com")])
    (specResolve
       (list_to_map
          [("Albania.prod.surfshark.com", [ip 10 0 7 7]);
           ("al-tia.prod.surfshark.com", [ip 10 0 0 1])])).

(** An empty archive and a DNS that knows no name. *)
Definition silentWorld : Collaborators := world ∅ (specResolve ∅).

Definition freshUpdater (W : Collaborators) (cli stdout : bool)
    (c : @http_Client W) (l : @lookupIPFunc W) : @updater W :=
  {| options := {| CLI := cli; Stdout := stdout |};
     client := c;
     lookupIP := l;
     timeNow_Unix := 1627000000;
     servers_Surfshark :=
       {| Timestamp := 1600000000;
          Servers := [{| Region := "Albania"; IPs := [ip 10 0 0 1] |}] |};
     logged := [];
     printed := [] |}.

End Fixture.


(** ** The API variant of the server search

    [findSurfsharkServersFromAPI] is kept in the file but not called by
    the updater.  Its HTTP exchange and JSON decoding belong to Go's
    standard library and are parameters; the deferred [Body.Close] runs
    after the result is fixed and does not show in it. *)

(** An element of the decoded JSON array. *)
Record jsonServer : Type := {
  Host : string;       (* json:"connectionName" *)
  Country : string;    (* json:"country" *)
  Location : string;   (* json:"location" *)
}.

(** The fields of [http.Response] the function reads. *)
Record http_Response (B : Type) : Type := {
  StatusCode : Z;
  Status : string;
  Body : B;
}.

Arguments StatusCode {B} _.
Arguments Status {B} _.
Arguments Body {B} _.

Class HTTPStack `{Collaborators} : Type := {
  http_Request : Type;
  http_Body : Type;
  (** [http.NewRequestWithContext(ctx, method, url, nil)]. *)
  http_NewRequestWithContext :
    context_Context → string → string → http_Request * option error;
  (** [client.Do(request)]. *)
  http_Client_Do :
    http_Client → http_Request → http_Response http_Body * option error;
  (** [json.NewDecoder(body).Decode(&jsonServers)]. *)
  json_Decode : http_Body → list jsonServer * option error;
  (** [response.Body.Close()]. *)
  Body_Close : http_Body → option error;
  (** The package's sentinel error for a status other than 200. *)
  ErrHTTPStatusCodeNotOK : error;
}.

Section API.
Context `{HTTPStack}.

Definition apiURL : string := "https://my.surfshark.com/vpn/api/v4/server/clusters".
Definition http_MethodGet : string := "GET".
Definition http_StatusOK : Z := 200.

(** [fmt.Errorf("%w: %s for %s", ErrHTTPStatusCodeNotOK, response.Status, url)]. *)
Definition statusError (status : string) : error :=
  wrapError
    (Error ErrHTTPStatusCodeNotOK +:+ ": " +:+ status +:+ " for " +:+ apiURL)
    ErrHTTPStatusCodeNotOK.

(** Body of the loop over the decoded servers; a host missing from
    [hostToIPs] reads as the nil slice. *)
Definition apiStep (hostToIPs : gmap string (list IP))
    (st : list SurfsharkServer * list string) (jsonServer : jsonServer)
  : list SurfsharkServer * list string :=
  let '(servers, warnings) := st in
  let host := Host jsonServer in
  let ips := default [] (hostToIPs !! host) in
  if (length ips =? 0)%nat then
    (servers, warnings ++ ["no IP address found for host " +:+ fmt_q host])
  else
    (servers ++
     [{| Region := Country jsonServer +:+ " " +:+ Location jsonServer;
         IPs := uniqueSortedIPs ips |}],
     warnings).

Definition findSurfsharkServersFromAPI (ctx : context_Context)
    (client : http_Client) (lookupIP : lookupIPFunc)
  : list SurfsharkServer * list string * option error :=
  let '(request, err) := http_NewRequestWithContext ctx http_MethodGet apiURL in
  match err with
  | Some err => ([], [], Some err)
  | None =>
      let '(response, err) := http_Client_Do client request in
      match err with
      | Some err => ([], [], Some err)
      | None =>
          if negb (StatusCode response =? http_StatusOK)%Z then
            ([], [], Some (statusError (Status response)))
          else
            let '(jsonServers, err) := json_Decode (Body response) in
            match err with
            | Some err => ([], [], Some err)
            | None =>
                match Body_Close (Body response) with
                | Some err => ([], [], Some err)
                | None =>
                    let hosts := Host <$> jsonServers in
                    let repetition := 20%Z in
                    let timeBetween := time_Second in
                    let failOnErr := true in
                    let '(hostToIPs, _, err) :=
                      parallelResolve ctx lookupIP hosts
                        repetition timeBetween failOnErr in
                    match err with
                    | Some err => ([], [], Some err)
                    | None =>
                        let '(servers, warnings) :=
                          foldl (apiStep hostToIPs) ([], []) jsonServers in
                        (servers, warnings, None)
                    end
                end
            end
      end
  end.

(** What one decoded server contributes. *)
Definition apiServerOf (hostToIPs : gmap string (list IP))
    (jsonServer : jsonServer) : option SurfsharkServer :=
  match default [] (hostToIPs !! Host jsonServer) with
  | [] => None
  | ips =>
      Some {| Region := Country jsonServer +:+ " " +:+ Location jsonServer;
              IPs := uniqueSortedIPs ips |}
  end.

Definition apiWarningOf (hostToIPs : gmap string (list IP))
    (jsonServer : jsonServer) : option string :=
  match default [] (hostToIPs !! Host jsonServer) with
  | [] => Some ("no IP address found for host " +:+ fmt_q (Host jsonServer))
  | _ => None
  end.

End API.

(** ** Further notions used to state properties *)

Section MoreObservations.
Context `{Collaborators}.

(** The error of an eligible file the parser rejects. *)
Definition parseError (file : string * string) : option error :=
  if GoStrings.HasSuffix file.1 "_tcp.ovpn" then None
  else (extractHostFromOVPN file.2).2.

(** The warnings one file adds: the parser's advisory warning when it is
    not empty, then the error with the file's name when there is one. *)
Definition fileWarnings (file : string * string) : list string :=
  if GoStrings.HasSuffix file.1 "_tcp.ovpn" then []
  else
    (if (0 <? String.length (extractHostFromOVPN file.2).1.2)%nat
     then [(extractHostFromOVPN file.2).1.2] else []) ++
    match (extractHostFromOVPN file.2).2 with
    | Some err => [Error err +:+ " in " +:+ file.1]
    | None => []
    end.


(** The pieces of the rendering of [stringifySurfsharkServers]. *)
Definition stringifyHeader : string :=
  "func SurfsharkServers() []models.SurfsharkServer {" +:+ newline +:+
  tab +:+ "return []models.SurfsharkServer{" +:+ newline.

Definition stringifyLine (server : SurfsharkServer) : string :=
  tab +:+ tab +:+ SurfsharkServer_String server +:+ "," +:+ newline.

Definition stringifyFooter : string := tab +:+ "}" +:+ newline +:+ "}".

End MoreObservations.

Module MoreFixtures.

(** An archive that cannot be fetched. *)
Definition fetchFailure : error := errorString "unexpected EOF".

Definition unreachableWorld : Collaborators :=
  {| context_Context := unit;
     http_Client := unit;
     lookupIPFunc := unit;
     fetchAndExtractFiles := λ _ _ _, (∅, Some fetchFailure);
     extractHostFromOVPN := Fixture.parseRemote;
     parallelResolve := λ _ _ hosts _ _ failOnErr,
       Fixture.specResolve Fixture.mixedDNS hosts failOnErr;
     fmt_q := Fixture.quote;
     SurfsharkServer_String := λ s, "{Region: " +:+ Fixture.quote (Region s) +:+ "}";
     mapRange := λ _ V m, map_to_list m;
     mapRange_perm := λ _ V m, reflexivity (map_to_list m) |}.

(** A best-effort call that answers for one name it was asked about and
    for one it was not. *)
Definition strayWorld : Collaborators :=
  Fixture.world Fixture.mixedArchive
    (λ hosts failOnErr,
       if failOnErr then Fixture.specResolve Fixture.mixedDNS hosts true
       else (list_to_map
               [("at-vie.prod.surfshark.com", [Fixture.ip 10 0 1 1]);
                ("stray.example.org", [Fixture.ip 10 9 9 9])],
             [], None)).

(** A parser that accepts every file as a hostname and finds every file
    odd. *)
Definition chattyWorld : Collaborators :=
  {| context_Context := unit;
     http_Client := unit;
     lookupIPFunc := unit;
     fetchAndExtractFiles := λ _ _ _,
       (list_to_map [("a_udp.ovpn", "al-tia.prod.surfshark.com")], None);
     extractHostFromOVPN := λ content, (content, "odd file", None);
     parallelResolve := λ _ _ hosts _ _ failOnErr,
       Fixture.specResolve Fixture.mixedDNS hosts failOnErr;
     fmt_q := Fixture.quote;
     SurfsharkServer_String := λ s, "{Region: " +:+ Fixture.quote (Region s) +:+ "}";
     mapRange := λ _ V m, map_to_list m;
     mapRange_perm := λ _ V m, reflexivity (map_to_list m) |}.

Definition notOK : error := errorString "HTTP status code is not OK".

(** An HTTP exchange that answers with the given status and servers. *)
Definition stack (W : Collaborators) (code : Z) (status : string)
    (decoded : list jsonServer) : @HTTPStack W :=
  {| http_Request := unit;
     http_Body := unit;
     http_NewRequestWithContext := λ _ _ _, (tt, None);
     http_Client_Do := λ _ _,
       ({| StatusCode := code; Status := status; Body := tt |}, None);
     json_Decode := λ _, (decoded, None);
     Body_Close := λ _, None;
     ErrHTTPStatusCodeNotOK := notOK |}.

Definition clusters : list jsonServer :=
  [{| Host := "al-tia.prod.surfshark.com"; Country := "Albania"; Location := "Tirana" |};
   {| Host := "gone.prod.surfshark.com"; Country := "Nowhere"; Location := "Gone" |};
   {| Host := "al-tia.prod.surfshark.com"; Country := "Albania"; Location := "Tirana" |}].

Definition apiWorld : Collaborators :=
  Fixture.world ∅
    (λ hosts _, (Fixture.mixedDNS, [], None)).

Definition okStack : @HTTPStack apiWorld := stack apiWorld 200 "200 OK" clusters.

Definition unavailableStack : @HTTPStack apiWorld :=
  stack apiWorld 503 "503 Service Unavailable" clusters.

End MoreFixtures.

(** * Properties *)

(** ** Strings *)

Section StringFacts.

Lemma length_append (s t : string) :
  String.length (s +:+ t) = String.length s + String.length t.
Proof. induction s as [|c s IH]; simpl; [reflexivity | by rewrite IH]. Qed.

Lemma substring_all (t : string) : substring 0 (String.length t) t = t.
Proof. induction t as [|c t IH]; simpl; [reflexivity | by rewrite IH]. Qed.

Lemma substring_append_r (s t : string) :
  substring (String.length s) (String.length t) (s +:+ t) = t.
Proof. induction s as [|c s IH]; simpl; [apply substring_all | exact IH]. Qed.

Lemma substring_append_l (s t : string) :
  substring 0 (String.length s) (s +:+ t) = s.
Proof.
  induction s as [|c s IH]; simpl.
  - by destruct t.
  - by rewrite IH.
Qed.

Lemma suffix_offset (s t u : string) :
  String.length u = String.length t →
  String.length (s +:+ t) - String.length u = String.length s.
Proof. intros ->. rewrite length_append. lia. Qed.

(** A string that ends in [t] has no other suffix of the length of [t]. *)
Lemma HasSuffix_append (s t u : string) :
  String.length u = String.length t →
  GoStrings.HasSuffix (s +:+ t) u = bool_decide (t = u).
Proof.
  intros Hlen. unfold GoStrings.HasSuffix.
  rewrite suffix_offset by done.
  rewrite Hlen, substring_append_r, length_append.
  replace (String.length t <=? String.length s + String.length t)%nat with true
    by (symmetry; apply Nat.leb_le; lia).
  simpl. destruct (String.eqb_spec t u);
    [by rewrite bool_decide_true | by rewrite bool_decide_false].
Qed.

Lemma HasSuffix_self (s t : string) : GoStrings.HasSuffix (s +:+ t) t = true.
Proof. rewrite HasSuffix_append by done. by rewrite bool_decide_true. Qed.

Lemma TrimSuffix_append (s t : string) : GoStrings.TrimSuffix (s +:+ t) t = s.
Proof.
  unfold GoStrings.TrimSuffix. rewrite HasSuffix_self.
  rewrite suffix_offset by done. apply substring_append_l.
Qed.

Lemma append_inj_l (s s' t : string) : s +:+ t = s' +:+ t → s = s'.
Proof.
  intros Heq. rewrite <- (TrimSuffix_append s t), <- (TrimSuffix_append s' t).
  by rewrite Heq.
Qed.

End StringFacts.

(** ** Extraction of the hostnames from the archive *)

Section Extraction.
Context `{Collaborators}.

(** One file adds to the state what it yields from the empty state. *)
Lemma extractStep_acc (st : list string * list string) (file : string * string) :
  extractStep st file =
  (st.1 ++ (extractStep ([], []) file).1, st.2 ++ (extractStep ([], []) file).2).
Proof.
  destruct st as [hosts warnings], file as [fileName content].
  unfold extractStep.
  destruct (GoStrings.HasSuffix fileName "_tcp.ovpn").
  { simpl. by rewrite !app_nil_r. }
  destruct (extractHostFromOVPN content) as [[host warning] [err|]];
    destruct (0 <? String.length warning)%nat; simpl;
    rewrite ?app_nil_r, <- ?app_assoc; reflexivity.
Qed.

Lemma extract_foldl (files : list (string * string)) :
  ∀ st, foldl extractStep st files =
        (st.1 ++ extractHosts files, st.2 ++ extractWarnings files).
Proof.
  induction files as [|file files IH]; intros st.
  - unfold extractHosts, extractWarnings. simpl. rewrite !app_nil_r. by destruct st.
  - change (foldl extractStep st (file :: files))
      with (foldl extractStep (extractStep st file) files).
    rewrite IH. unfold extractHosts at 2, extractWarnings at 2. cbn [foldl].
    rewrite (IH (extractStep ([], []) file)), (extractStep_acc st file).
    cbn [fst snd]. by rewrite <- !app_assoc.
Qed.

Lemma extractHosts_cons file files :
  extractHosts (file :: files) = (extractStep ([], []) file).1 ++ extractHosts files.
Proof. unfold extractHosts at 1. simpl. by rewrite extract_foldl. Qed.

Lemma extractWarnings_cons file files :
  extractWarnings (file :: files) =
  (extractStep ([], []) file).2 ++ extractWarnings files.
Proof. unfold extractWarnings at 1. simpl. by rewrite extract_foldl. Qed.

Lemma extractHosts_app l1 l2 :
  extractHosts (l1 ++ l2) = extractHosts l1 ++ extractHosts l2.
Proof.
  unfold extractHosts at 1. rewrite foldl_app, extract_foldl.
  by rewrite (extract_foldl l1).
Qed.

Lemma extractWarnings_app l1 l2 :
  extractWarnings (l1 ++ l2) = extractWarnings l1 ++ extractWarnings l2.
Proof.
  unfold extractWarnings at 1. rewrite foldl_app, extract_foldl.
  by rewrite (extract_foldl l1).
Qed.

Lemma extractStep_tcp st fileName content :
  GoStrings.HasSuffix fileName "_tcp.ovpn" = true →
  extractStep st (fileName, content) = st.
Proof. intros Htcp. destruct st. unfold extractStep. by rewrite Htcp. Qed.

Lemma tcp_udp_names_differ (x : string) :
  x +:+ "_tcp.ovpn" ≠ x +:+ "_udp.ovpn".
Proof.
  intros Heq.
  pose proof (HasSuffix_self x "_tcp.ovpn") as Htcp.
  rewrite Heq, HasSuffix_append in Htcp by done.
  by apply bool_decide_eq_true in Htcp.
Qed.

(** C4: a file whose name ends in [_tcp.ovpn] leaves the extraction state
    as it was, so the loop yields the same hostnames and warnings as on
    the archive without those files; and an archive made of
    [x_tcp.ovpn] and [x_udp.ovpn] yields the one hostname of the UDP
    file, in whichever order the two files are visited. *)
Theorem tcp_variant_skipped :
  (∀ st fileName content,
     GoStrings.HasSuffix fileName "_tcp.ovpn" = true →
     extractStep st (fileName, content) = st) ∧
  (∀ st files,
     foldl extractStep st files =
     foldl extractStep st
       (filter (λ file, GoStrings.HasSuffix file.1 "_tcp.ovpn" = false) files)) ∧
  (∀ x tcpContent udpContent host warning,
     extractHostFromOVPN udpContent = (host, warning, None) →
     extractHosts (mapRange RangeContents
       ({[ x +:+ "_tcp.ovpn" := tcpContent;
           x +:+ "_udp.ovpn" := udpContent ]} : gmap string string)) = [host]).
Proof.
  split; [exact extractStep_tcp|]. split.
  - intros st files. revert st.
    induction files as [|[fileName content] files IH]; intros st; [done|].
    rewrite filter_cons. simpl.
    destruct (GoStrings.HasSuffix fileName "_tcp.ovpn") eqn:Htcp.
    + rewrite extractStep_tcp by done. rewrite decide_False by done. apply IH.
    + rewrite decide_True by done. simpl. apply IH.
  - intros x tcpContent udpContent host warning Hparse.
    pose proof (mapRange_perm RangeContents _
      ({[ x +:+ "_tcp.ovpn" := tcpContent;
          x +:+ "_udp.ovpn" := udpContent ]} : gmap string string)) as Hperm.
    rewrite map_to_list_insert in Hperm
      by (rewrite lookup_singleton_ne; [done | apply not_eq_sym, tcp_udp_names_differ]).
    rewrite map_to_list_singleton in Hperm.
    symmetry in Hperm. apply Permutation_length_2_inv in Hperm.
    assert (Hudp : (extractStep ([], []) (x +:+ "_udp.ovpn", udpContent)).1 = [host]).
    { unfold extractStep. rewrite HasSuffix_append by done.
      rewrite bool_decide_false by done. rewrite Hparse.
      by destruct (0 <? String.length warning)%nat. }
    assert (Htcp : (extractStep ([], []) (x +:+ "_tcp.ovpn", tcpContent)).1 = []).
    { by rewrite extractStep_tcp by apply HasSuffix_self. }
    destruct Hperm as [-> | ->];
      rewrite !extractHosts_cons, Hudp, Htcp; reflexivity.
Qed.

(** C5 (as the code has it): the hostname list holds one entry for each
    file that is not a TCP variant and that the parser accepts, in the
    order the files are visited; no entry is dropped for being equal to
    another. *)
Theorem extracted_hosts_one_per_parsed_file (files : list (string * string)) :
  extractHosts files = omap parsedHost files ∧
  length (extractHosts files) =
  length (filter (λ file, is_Some (parsedHost file)) files).
Proof.
  assert (Hhosts : extractHosts files = omap parsedHost files).
  { induction files as [|[fileName content] files IH]; [done|].
    rewrite extractHosts_cons, IH. simpl.
    unfold parsedHost, extractStep. simpl.
    destruct (GoStrings.HasSuffix fileName "_tcp.ovpn"); [done|].
    destruct (extractHostFromOVPN content) as [[host warning] [err|]];
      by destruct (0 <? String.length warning)%nat. }
  split; [exact Hhosts|]. rewrite Hhosts. clear Hhosts.
  induction files as [|file files IH]; [done|].
  rewrite filter_cons. cbn [omap list_omap].
  destruct (parsedHost file) as [host|] eqn:Hparsed.
  - rewrite decide_True by (by eexists). cbn [length]. by rewrite IH.
  - rewrite decide_False by (by intros [? ?]). exact IH.
Qed.

End Extraction.

(** ** The shape of a run *)

Section Run.
Context `{Collaborators}.

Lemma getRemainingServers_unfold ctx mapping lookupIP :
  getRemainingServers ctx mapping lookupIP =
  (foldl (remainingStep mapping) []
     (mapRange RangeRemaining (bestEffortResolve ctx mapping lookupIP).1.1),
   (bestEffortResolve ctx mapping lookupIP).1.2).
Proof.
  unfold getRemainingServers, bestEffortResolve, remainingHosts.
  by destruct (parallelResolve _ _ _ _ _ _) as [[hostToIPs warnings] err].
Qed.

Lemma findSurfsharkServersFromZip_unfold ctx client lookupIP :
  findSurfsharkServersFromZip ctx client lookupIP =
  match (fetchAndExtractFiles ctx client zipURL).2 with
  | Some err => ([], [], Some err)
  | None =>
      match (strictResolve ctx client lookupIP).2 with
      | Some err => ([], archiveWarnings ctx client, Some err)
      | None =>
          let st := afterArchivePass ctx client lookupIP in
          let remaining := getRemainingServers ctx (st_mapping st) lookupIP in
          (sort_Slice lessRegion (st_servers st ++ remaining.1),
           st_warnings st ++ remaining.2, None)
      end
  end.
Proof.
  unfold findSurfsharkServersFromZip, afterArchivePass, strictResolve,
    archiveWarnings, archiveHosts, extractWarnings, extractHosts.
  destruct (fetchAndExtractFiles ctx client zipURL) as [contents [err|]]; [done|].
  cbn [fst snd].
  destruct (foldl extractStep ([], []) (mapRange RangeContents contents))
    as [hosts warnings].
  cbn [fst snd].
  destruct (parallelResolve ctx lookupIP hosts 20 time_Second true)
    as [[hostToIPs resolveWarnings] [err|]]; [done|].
  cbn [fst snd].
  by destruct (getRemainingServers _ _ _) as [remainingServers newWarnings].
Qed.

(** What a rejected file appends, in full: the parser's advisory warning
    when it has one, then the error with the file's name. *)
Lemma extractStep_rejected st fileName content host warning err :
  GoStrings.HasSuffix fileName "_tcp.ovpn" = false →
  extractHostFromOVPN content = (host, warning, Some err) →
  extractStep st (fileName, content) =
  (st.1,
   st.2 ++ (if (0 <? String.length warning)%nat then [warning] else []) ++
   [Error err +:+ " in " +:+ fileName]).
Proof.
  intros Heligible Hparse. destruct st as [hosts warnings].
  unfold extractStep. rewrite Heligible, Hparse.
  by destruct (0 <? String.length warning)%nat; cbn; rewrite <- ?app_assoc.
Qed.

(** C6: an eligible file on which the parser returns an error (and, as
    its interface has it, no advisory warning) adds one warning, made of
    the parser's message and the file's name, and no hostname; the files
    visited before and after it contribute what they contribute on
    their own; and the only errors [findSurfsharkServersFromZip] returns
    are the archive fetch's and the strict resolver call's. *)
Theorem parse_failure_downgraded_to_warning ctx client lookupIP :
  (∀ (contents : gmap string string) fileName content host err,
     contents !! fileName = Some content →
     GoStrings.HasSuffix fileName "_tcp.ovpn" = false →
     extractHostFromOVPN content = (host, EmptyString, Some err) →
     ∃ before after,
       mapRange RangeContents contents = before ++ (fileName, content) :: after ∧
       foldl extractStep ([], []) (mapRange RangeContents contents) =
       (extractHosts before ++ extractHosts after,
        extractWarnings before ++
        [Error err +:+ " in " +:+ fileName] ++ extractWarnings after)) ∧
  (findSurfsharkServersFromZip ctx client lookupIP).2 =
  match (fetchAndExtractFiles ctx client zipURL).2 with
  | Some err => Some err
  | None => (strictResolve ctx client lookupIP).2
  end.
Proof.
  split.
  - intros contents fileName content host err Hfile Heligible Hparse.
    assert (Hin : (fileName, content) ∈ mapRange RangeContents contents).
    { rewrite mapRange_perm. by apply elem_of_map_to_list. }
    apply list_elem_of_split in Hin as (before & after & Hsplit).
    exists before, after. split; [exact Hsplit|].
    rewrite Hsplit, extract_foldl. cbn [fst snd app].
    rewrite extractHosts_app, extractWarnings_app.
    rewrite extractHosts_cons, extractWarnings_cons.
    unfold extractStep. cbn [fst snd]. rewrite Heligible, Hparse. reflexivity.
  - rewrite findSurfsharkServersFromZip_unfold.
    destruct (fetchAndExtractFiles ctx client zipURL).2; [done|].
    by destruct (strictResolve ctx client lookupIP).2.
Qed.

End Run.

(** ** Sorting *)

Section StringOrder.

Lemma ascii_compare_refl (a : ascii) : Ascii.compare a a = Eq.
Proof. unfold Ascii.compare. apply N.compare_refl. Qed.

Lemma ascii_compare_lt_trans (a b c : ascii) :
  Ascii.compare a b = Lt → Ascii.compare b c = Lt → Ascii.compare a c = Lt.
Proof.
  unfold Ascii.compare. rewrite !N.compare_lt_iff. apply N.lt_trans.
Qed.

Lemma string_compare_refl (s : string) : String.compare s s = Eq.
Proof.
  induction s as [|a s IH]; [done|]. simpl. by rewrite ascii_compare_refl.
Qed.

Lemma string_compare_lt_trans (s t u : string) :
  String.compare s t = Lt → String.compare t u = Lt → String.compare s u = Lt.
Proof.
  revert t u. induction s as [|a s IH]; intros [|b t] [|c u]; simpl; try done.
  destruct (Ascii.compare a b) eqn:Hab; try done;
    destruct (Ascii.compare b c) eqn:Hbc; try done; intros Hst Htu.
  - apply Ascii.compare_eq_iff in Hab as ->.
    apply Ascii.compare_eq_iff in Hbc as ->.
    rewrite ascii_compare_refl. by apply (IH t u).
  - apply Ascii.compare_eq_iff in Hab as ->. by rewrite Hbc.
  - apply Ascii.compare_eq_iff in Hbc as <-. by rewrite Hab.
  - by rewrite (ascii_compare_lt_trans a b c).
Qed.

Lemma string_leb_cases (s t : string) :
  String.leb s t = true ↔ String.compare s t = Lt ∨ s = t.
Proof.
  unfold String.leb. split.
  - destruct (String.compare s t) eqn:Hc; try done; intros _.
    + right. by apply String.compare_eq_iff.
    + by left.
  - intros [-> | ->]; [done|]. by rewrite string_compare_refl.
Qed.

Lemma string_leb_trans (s t u : string) :
  String.leb s t = true → String.leb t u = true → String.leb s u = true.
Proof.
  rewrite !string_leb_cases. intros [Hst | ->] [Htu | ->]; auto.
  left. by apply (string_compare_lt_trans s t u).
Qed.

Lemma string_ltb_leb (s t : string) :
  String.ltb s t = true → String.leb s t = true.
Proof. unfold String.ltb, String.leb. by destruct (String.compare s t). Qed.

Lemma string_not_ltb_leb (s t : string) :
  String.ltb s t = false → String.leb t s = true.
Proof.
  unfold String.ltb, String.leb. rewrite (String.compare_antisym t s).
  by destruct (String.compare s t).
Qed.

End StringOrder.

Section InsertionSort.
Context {A : Type} (less : A → A → bool) (le : A → A → Prop).
Hypothesis less_le : ∀ x y, less x y = true → le x y.
Hypothesis not_less_le : ∀ x y, less x y = false → le y x.
Hypothesis le_trans : ∀ x y z, le x y → le y z → le x z.

Lemma bubble_perm (x : A) (rprefix : list A) :
  bubble less x rprefix ≡ₚ x :: rprefix.
Proof.
  induction rprefix as [|y rest IH]; simpl; [done|].
  destruct (less x y); [|done]. rewrite IH. apply Permutation_swap.
Qed.

Lemma sort_Slice_perm (data : list A) : sort_Slice less data ≡ₚ data.
Proof.
  unfold sort_Slice. rewrite <- Permutation_rev.
  cut (∀ acc, foldl (λ rprefix x, bubble less x rprefix) acc data ≡ₚ acc ++ data).
  { intros Hacc. apply (Hacc []). }
  induction data as [|x data IH]; intros acc; simpl.
  - by rewrite app_nil_r.
  - rewrite IH, bubble_perm. apply Permutation_middle.
Qed.

(** The reversed prefix is kept in decreasing order. *)
Lemma bubble_sorted (x : A) (rprefix : list A) :
  StronglySorted (flip le) rprefix →
  StronglySorted (flip le) (bubble less x rprefix).
Proof.
  induction 1 as [|y rest Hrest IH Hy]; simpl.
  - repeat constructor.
  - destruct (less x y) eqn:Hless.
    + constructor; [exact IH|].
      rewrite bubble_perm. constructor; [by apply less_le | exact Hy].
    + constructor; [by constructor|].
      constructor; [by apply not_less_le|].
      eapply Forall_impl; [exact Hy|]. intros z Hz. unfold flip in *.
      eapply le_trans; [exact Hz | by apply not_less_le].
Qed.

Lemma StronglySorted_rev (l : list A) :
  StronglySorted (flip le) l → StronglySorted le (rev l).
Proof.
  induction 1 as [|y rest Hrest IH Hy]; simpl; [constructor|].
  apply StronglySorted_app_2; [| exact IH | repeat constructor].
  intros a b Ha Hb. apply list_elem_of_singleton in Hb as ->.
  rewrite list_elem_of_In, <- in_rev, <- list_elem_of_In in Ha.
  rewrite Forall_forall in Hy. by apply Hy.
Qed.

Lemma sort_Slice_sorted (data : list A) :
  StronglySorted le (sort_Slice less data).
Proof.
  unfold sort_Slice. apply StronglySorted_rev.
  cut (∀ acc, StronglySorted (flip le) acc →
              StronglySorted (flip le)
                (foldl (λ rprefix x, bubble less x rprefix) acc data)).
  { intros Hacc. apply Hacc. constructor. }
  induction data as [|x data IH]; intros acc Hsorted; simpl; [done|].
  by apply IH, bubble_sorted.
Qed.

End InsertionSort.

Section SortedResult.
Context `{Collaborators}.

Lemma sort_by_region_sorted (servers : list SurfsharkServer) :
  StronglySorted regionLe (sort_Slice lessRegion servers).
Proof.
  apply sort_Slice_sorted; unfold lessRegion, regionLe.
  - intros x y. apply string_ltb_leb.
  - intros x y. apply string_not_ltb_leb.
  - intros x y z. apply string_leb_trans.
Qed.

(** C3: in the list [findSurfsharkServersFromZip] returns, every server
    is followed only by servers whose region name is greater than or
    equal to its own in the byte-wise lexicographic order; on a
    successful run that list is a rearrangement of the servers of the
    two passes. *)
Theorem servers_sorted_by_region ctx client lookupIP :
  StronglySorted regionLe (findSurfsharkServersFromZip ctx client lookupIP).1.1 ∧
  ((findSurfsharkServersFromZip ctx client lookupIP).2 = None →
   (findSurfsharkServersFromZip ctx client lookupIP).1.1 ≡ₚ
   st_servers (afterArchivePass ctx client lookupIP) ++
   (getRemainingServers ctx
      (st_mapping (afterArchivePass ctx client lookupIP)) lookupIP).1).
Proof.
  rewrite findSurfsharkServersFromZip_unfold.
  destruct (fetchAndExtractFiles ctx client zipURL).2.
  { split; [constructor | done]. }
  destruct (strictResolve ctx client lookupIP).2.
  { split; [constructor | done]. }
  cbn [fst snd]. split; [apply sort_by_region_sorted|].
  intros _. apply sort_Slice_perm.
Qed.

End SortedResult.

(** ** The archive pass *)

Section ArchivePass.
Context `{Collaborators}.

Lemma no_IPs_test (ips : list IP) : (length ips =? 0)%nat = bool_decide (ips = []).
Proof. by destruct ips. Qed.

Lemma reconcileStep_no_IPs st host :
  reconcileStep st (host, []) =
  {| st_mapping := st_mapping st;
     st_servers := st_servers st;
     st_warnings :=
       st_warnings st ++ ["no IP address found for host " +:+ fmt_q host] |}.
Proof. reflexivity. Qed.

Lemma reconcileStep_unmapped st host ips :
  ips ≠ [] → st_mapping st !! codeOf host = None →
  reconcileStep st (host, ips) =
  {| st_mapping := st_mapping st;
     st_servers :=
       st_servers st ++ [{| Region := codeOf host; IPs := uniqueSortedIPs ips |}];
     st_warnings := st_warnings st ++ [unmappedWarning (codeOf host)] |}.
Proof.
  intros Hips Hnone. unfold reconcileStep.
  rewrite no_IPs_test, bool_decide_false by done.
  fold (codeOf host). by rewrite Hnone.
Qed.

Lemma reconcileStep_mapped st host ips region :
  ips ≠ [] → st_mapping st !! codeOf host = Some region →
  reconcileStep st (host, ips) =
  {| st_mapping := delete (codeOf host) (st_mapping st);
     st_servers :=
       st_servers st ++ [{| Region := region; IPs := uniqueSortedIPs ips |}];
     st_warnings := st_warnings st |}.
Proof.
  intros Hips Hsome. unfold reconcileStep.
  rewrite no_IPs_test, bool_decide_false by done.
  fold (codeOf host). by rewrite Hsome.
Qed.

(** What one entry with addresses does, whichever branch it takes. *)
Lemma reconcileStep_live st entry :
  entry.2 ≠ [] →
  st_servers (reconcileStep st entry) =
    st_servers st ++ [archiveServer (st_mapping st) entry] ∧
  (∀ c, st_mapping (reconcileStep st entry) !! c =
        if decide (c = codeOf entry.1) then None else st_mapping st !! c) ∧
  ∃ added, st_warnings (reconcileStep st entry) = st_warnings st ++ added.
Proof.
  destruct entry as [host ips]. cbn [fst snd]. intros Hips.
  unfold archiveServer. cbn [fst snd].
  destruct (st_mapping st !! codeOf host) as [region|] eqn:Hlookup.
  - rewrite (reconcileStep_mapped _ _ _ region) by done. cbn.
    split; [done|]. split; [|by exists []; rewrite app_nil_r].
    intros c. destruct (decide (c = codeOf host)) as [->|Hne].
    + apply lookup_delete_eq.
    + by apply lookup_delete_ne.
  - rewrite reconcileStep_unmapped by done. cbn.
    split; [done|]. split; [|by eexists].
    intros c. by destruct (decide (c = codeOf host)) as [->|Hne].
Qed.

Lemma reconcileStep_dead st entry :
  entry.2 = [] →
  st_servers (reconcileStep st entry) = st_servers st ∧
  st_mapping (reconcileStep st entry) = st_mapping st ∧
  ∃ added, st_warnings (reconcileStep st entry) = st_warnings st ++ added.
Proof.
  destruct entry as [host ips]. cbn [fst snd]. intros ->.
  rewrite reconcileStep_no_IPs. cbn. eauto.
Qed.

(** The loop only appends to the servers and to the warnings, and only
    removes from the working copy. *)
Lemma reconcile_grows entries :
  ∀ st,
    (∃ added, st_servers (foldl reconcileStep st entries) = st_servers st ++ added) ∧
    (∃ added, st_warnings (foldl reconcileStep st entries) = st_warnings st ++ added) ∧
    (∀ c, st_mapping st !! c = None →
          st_mapping (foldl reconcileStep st entries) !! c = None).
Proof.
  induction entries as [|entry entries IH]; intros st; cbn [foldl].
  { split; [|split]; [by exists []; rewrite app_nil_r..|done]. }
  destruct (IH (reconcileStep st entry)) as ((s2 & Hs2) & (w2 & Hw2) & Hmap).
  destruct (decide (entry.2 = [])) as [Hdead|Hlive].
  - destruct (reconcileStep_dead st entry Hdead) as (Hs1 & Hm1 & (w1 & Hw1)).
    rewrite Hs2, Hw2, Hs1, Hw1. split; [by eexists|].
    split; [by exists (w1 ++ w2); rewrite app_assoc|].
    intros c Hc. apply Hmap. by rewrite Hm1.
  - destruct (reconcileStep_live st entry Hlive) as (Hs1 & Hm1 & (w1 & Hw1)).
    rewrite Hs2, Hw2, Hs1, Hw1. split; [by eexists; rewrite <- app_assoc|].
    split; [by exists (w1 ++ w2); rewrite app_assoc|].
    intros c Hc. apply Hmap. rewrite Hm1. by destruct (decide _).
Qed.

(** A code of the working copy that some entry with addresses carries
    is matched: one such entry gets the table's name, and the code is
    gone from the working copy at the end of the loop. *)
Lemma reconcile_matches entries :
  ∀ st c region,
    st_mapping st !! c = Some region →
    c ∈ liveCodes entries →
    (∃ host ips, (host, ips) ∈ entries ∧ codeOf host = c ∧
       {| Region := region; IPs := uniqueSortedIPs ips |}
         ∈ st_servers (foldl reconcileStep st entries)) ∧
    st_mapping (foldl reconcileStep st entries) !! c = None.
Proof.
  unfold liveCodes.
  induction entries as [|[host ips] entries IH]; intros st c region Hsome Hin.
  { by apply elem_of_nil in Hin. }
  cbn [foldl].
  destruct (reconcile_grows entries (reconcileStep st (host, ips)))
    as ((s2 & Hs2) & _ & Hgone).
  rewrite filter_cons in Hin. cbn [fst snd] in Hin.
  destruct (decide (ips ≠ [])) as [Hlive|Hdead].
  - rewrite fmap_cons in Hin. cbn [fst] in Hin.
    destruct (decide (c = codeOf host)) as [->|Hne].
    + rewrite (reconcileStep_mapped _ _ _ region) in * by done. split.
      * exists host, ips. split; [left|]. split; [done|].
        rewrite Hs2. cbn. rewrite !elem_of_app, list_elem_of_singleton. auto.
      * apply Hgone. cbn. apply lookup_delete_eq.
    + apply elem_of_cons in Hin as [?|Hin]; [done|].
      destruct (reconcileStep_live st (host, ips) Hlive) as (_ & Hm1 & _).
      destruct (IH (reconcileStep st (host, ips)) c region) as ((h & i & Hhi & ? & ?) & ?);
        [by rewrite Hm1, decide_False | done |].
      split; [|done]. exists h, i. split; [by right | done].
  - assert (ips = []) as -> by (by destruct ips; [|destruct Hdead]).
    destruct (IH (reconcileStep st (host, [])) c region) as ((h & i & Hhi & ? & ?) & ?);
      [by rewrite reconcileStep_no_IPs | done |].
    split; [|done]. exists h, i. split; [by right | done].
Qed.

End ArchivePass.

(** ** The static table *)

Section TableFacts.

Lemma surfsharkTable_codes_distinct : NoDup surfsharkTable.*1.
Proof. apply (bool_decide_unpack _). vm_compute. exact I. Qed.

Lemma surfsharkTable_names_distinct : NoDup surfsharkTable.*2.
Proof. apply (bool_decide_unpack _). vm_compute. exact I. Qed.

Lemma table_lookup (c region : string) :
  surfsharkSubdomainToRegion !! c = Some region ↔ (c, region) ∈ surfsharkTable.
Proof.
  unfold surfsharkSubdomainToRegion. symmetry.
  apply elem_of_list_to_map, surfsharkTable_codes_distinct.
Qed.

Lemma NoDup_snd_inj {A B : Type} (l : list (A * B)) (a a' : A) (b : B) :
  NoDup l.*2 → (a, b) ∈ l → (a', b) ∈ l → a = a'.
Proof.
  induction l as [|[x y] l IH]; intros Hnd Ha Ha'.
  { by apply elem_of_nil in Ha. }
  rewrite fmap_cons in Hnd. cbn [snd] in Hnd.
  apply NoDup_cons in Hnd as [Hy Hnd].
  apply elem_of_cons in Ha as [Ha|Ha], Ha' as [Ha'|Ha'].
  - congruence.
  - inversion Ha; subst. destruct Hy.
    apply list_elem_of_fmap. by exists (a', y).
  - inversion Ha'; subst. destruct Hy.
    apply list_elem_of_fmap. by exists (a, y).
  - by apply IH.
Qed.

(** Two codes of the table never share a region name. *)
Lemma table_names_injective (c c' region : string) :
  surfsharkSubdomainToRegion !! c = Some region →
  surfsharkSubdomainToRegion !! c' = Some region →
  c = c'.
Proof.
  rewrite !table_lookup.
  apply NoDup_snd_inj, surfsharkTable_names_distinct.
Qed.

Lemma table_name_listed (c region : string) :
  surfsharkSubdomainToRegion !! c = Some region → region ∈ surfsharkTable.*2.
Proof.
  rewrite table_lookup. intros Hin.
  apply list_elem_of_fmap. by exists (c, region).
Qed.

End TableFacts.

Section Reconciliation.
Context `{Collaborators}.

(* The table is a large literal: keep unification from unfolding it. *)
#[local] Opaque surfsharkSubdomainToRegion.

Lemma findSurfsharkServersFromZip_success ctx client lookupIP :
  (fetchAndExtractFiles ctx client zipURL).2 = None →
  (strictResolve ctx client lookupIP).2 = None →
  findSurfsharkServersFromZip ctx client lookupIP =
  (sort_Slice lessRegion
     (st_servers (afterArchivePass ctx client lookupIP) ++
      (getRemainingServers ctx
         (st_mapping (afterArchivePass ctx client lookupIP)) lookupIP).1),
   st_warnings (afterArchivePass ctx client lookupIP) ++
   (getRemainingServers ctx
      (st_mapping (afterArchivePass ctx client lookupIP)) lookupIP).2,
   None).
Proof.
  intros Hfetch Hstrict.
  by rewrite findSurfsharkServersFromZip_unfold, Hfetch, Hstrict.
Qed.

Lemma archive_server_returned ctx client lookupIP server :
  (fetchAndExtractFiles ctx client zipURL).2 = None →
  (strictResolve ctx client lookupIP).2 = None →
  server ∈ st_servers (afterArchivePass ctx client lookupIP) →
  server ∈ (findSurfsharkServersFromZip ctx client lookupIP).1.1.
Proof.
  intros Hfetch Hstrict Hin.
  rewrite findSurfsharkServersFromZip_success by done. cbn [fst snd].
  rewrite sort_Slice_perm. apply elem_of_app. by left.
Qed.

Lemma remaining_server_returned ctx client lookupIP server :
  (fetchAndExtractFiles ctx client zipURL).2 = None →
  (strictResolve ctx client lookupIP).2 = None →
  server ∈ (getRemainingServers ctx
              (st_mapping (afterArchivePass ctx client lookupIP)) lookupIP).1 →
  server ∈ (findSurfsharkServersFromZip ctx client lookupIP).1.1.
Proof.
  intros Hfetch Hstrict Hin.
  rewrite findSurfsharkServersFromZip_success by done. cbn [fst snd].
  rewrite sort_Slice_perm. apply elem_of_app. by right.
Qed.

Lemma table_lookup_None_kept ctx client c :
  surfsharkSubdomainToRegion !! c = None →
  ∀ entries,
    st_mapping
      (foldl reconcileStep
         {| st_mapping := surfsharkSubdomainToRegion;
            st_servers := [];
            st_warnings := archiveWarnings ctx client |} entries) !! c = None.
Proof.
  intros Hnone entries.
  by apply (reconcile_grows entries).
Qed.

(** C9: an entry of the archive pass that has addresses and whose code
    is not in the working copy appends a server named by the bare code
    and the one warning that names the code, and leaves the working copy
    alone; an entry whose code is in the working copy appends a server
    with the table's name, no warning, and removes the code.  Over a
    whole successful run: a resolved host whose code is not in the table
    has its fallback server in the returned list and its warning among
    the returned warnings; a code of the table is out of the working copy
    after the pass, and one resolved host of that code has the table's
    name in the returned list. *)
Theorem unmapped_code_falls_back_to_code ctx client lookupIP :
  (∀ st host ips,
     ips ≠ [] →
     match st_mapping st !! codeOf host with
     | None =>
         reconcileStep st (host, ips) =
         {| st_mapping := st_mapping st;
            st_servers :=
              st_servers st ++
              [{| Region := codeOf host; IPs := uniqueSortedIPs ips |}];
            st_warnings := st_warnings st ++ [unmappedWarning (codeOf host)] |}
     | Some region =>
         reconcileStep st (host, ips) =
         {| st_mapping := delete (codeOf host) (st_mapping st);
            st_servers :=
              st_servers st ++
              [{| Region := region; IPs := uniqueSortedIPs ips |}];
            st_warnings := st_warnings st |}
     end) ∧
  ((fetchAndExtractFiles ctx client zipURL).2 = None →
   (strictResolve ctx client lookupIP).2 = None →
   ∀ host ips,
     (strictResolve ctx client lookupIP).1.1 !! host = Some ips →
     ips ≠ [] →
     match surfsharkSubdomainToRegion !! codeOf host with
     | None =>
         {| Region := codeOf host; IPs := uniqueSortedIPs ips |}
           ∈ (findSurfsharkServersFromZip ctx client lookupIP).1.1 ∧
         unmappedWarning (codeOf host)
           ∈ (findSurfsharkServersFromZip ctx client lookupIP).1.2
     | Some region =>
         (∃ host' ips',
            (strictResolve ctx client lookupIP).1.1 !! host' = Some ips' ∧
            codeOf host' = codeOf host ∧
            {| Region := region; IPs := uniqueSortedIPs ips' |}
              ∈ (findSurfsharkServersFromZip ctx client lookupIP).1.1) ∧
         st_mapping (afterArchivePass ctx client lookupIP) !! codeOf host = None
     end).
Proof.
  split.
  { intros st host ips Hips.
    destruct (st_mapping st !! codeOf host) as [region|] eqn:Hlookup.
    - by apply reconcileStep_mapped.
    - by apply reconcileStep_unmapped. }
  intros Hfetch Hstrict host ips Hhost Hips.
  assert (Hin : (host, ips)
                  ∈ mapRange RangeHostToIPs (strictResolve ctx client lookupIP).1.1).
  { rewrite mapRange_perm. by apply elem_of_map_to_list. }
  destruct (surfsharkSubdomainToRegion !! codeOf host) as [region|] eqn:Htable.
  - destruct (reconcile_matches
                (mapRange RangeHostToIPs (strictResolve ctx client lookupIP).1.1)
                {| st_mapping := surfsharkSubdomainToRegion;
                   st_servers := [];
                   st_warnings := archiveWarnings ctx client |}
                (codeOf host) region Htable)
      as ((host' & ips' & Hin' & Hcode & Hserver) & Hgone).
    { unfold liveCodes. apply list_elem_of_fmap. exists (host, ips).
      split; [done|]. by apply list_elem_of_filter. }
    split; [|exact Hgone].
    exists host', ips'. split; [|split; [done|]].
    + rewrite mapRange_perm in Hin'. by apply elem_of_map_to_list in Hin'.
    + by apply archive_server_returned.
  - apply list_elem_of_split in Hin as (before & after & Hsplit).
    pose proof (table_lookup_None_kept ctx client _ Htable before) as Hnone.
    assert (Hstate :
      ∃ servers warnings,
        st_servers (afterArchivePass ctx client lookupIP) =
          servers.1 ++
          [{| Region := codeOf host; IPs := uniqueSortedIPs ips |}] ++ servers.2 ∧
        st_warnings (afterArchivePass ctx client lookupIP) =
          warnings.1 ++ [unmappedWarning (codeOf host)] ++ warnings.2).
    { unfold afterArchivePass. rewrite Hsplit, foldl_app. cbn [foldl].
      rewrite (reconcileStep_unmapped _ host ips Hips Hnone).
      match goal with
      | |- context [foldl reconcileStep ?st after] =>
          destruct (reconcile_grows after st) as ((s2 & ->) & (w2 & ->) & _)
      end.
      cbn [st_servers st_warnings].
      eexists (_, s2), (_, w2). cbn [fst snd].
      split; symmetry; apply app_assoc. }
    destruct Hstate as ([s1 s2] & [w1 w2] & Hservers & Hwarnings).
    cbn [fst snd] in *. split.
    + apply archive_server_returned; [done..|].
      rewrite Hservers, !elem_of_app, list_elem_of_singleton. auto.
    + rewrite findSurfsharkServersFromZip_success by done. cbn [fst snd].
      rewrite Hwarnings, !elem_of_app, list_elem_of_singleton. auto.
Qed.

End Reconciliation.

(** ** The table pass *)

Section TablePass.
Context `{Collaborators}.

Lemma remaining_foldl mapping entries :
  ∀ servers,
    foldl (remainingStep mapping) servers entries =
    servers ++ (remainingServer mapping <$> entries).
Proof.
  induction entries as [|[host ips] entries IH]; intros servers; cbn [foldl].
  - by rewrite app_nil_r.
  - rewrite IH. unfold remainingStep, remainingServer, codeOf. cbn [fst snd].
    by rewrite <- app_assoc.
Qed.

Lemma getRemainingServers_servers ctx mapping lookupIP :
  (getRemainingServers ctx mapping lookupIP).1 =
  remainingServer mapping
    <$> mapRange RangeRemaining (bestEffortResolve ctx mapping lookupIP).1.1.
Proof. rewrite getRemainingServers_unfold. cbn [fst]. apply remaining_foldl. Qed.

Lemma remaining_entry_emitted ctx mapping lookupIP host ips :
  (bestEffortResolve ctx mapping lookupIP).1.1 !! host = Some ips →
  remainingServer mapping (host, ips) ∈ (getRemainingServers ctx mapping lookupIP).1.
Proof.
  intros Hhost. rewrite getRemainingServers_servers.
  apply list_elem_of_fmap. exists (host, ips). split; [done|].
  rewrite mapRange_perm. by apply elem_of_map_to_list.
Qed.

(** C1, what the code does: [getRemainingServers] builds a server for
    every entry of the best-effort result, the entries without address
    included; such an entry gives a server with an empty IP set, which a
    successful run returns. *)
Theorem unresolved_table_host_gets_server ctx client lookupIP :
  (∀ mapping host,
     (bestEffortResolve ctx mapping lookupIP).1.1 !! host = Some [] →
     {| Region := default EmptyString (mapping !! codeOf host); IPs := [] |}
       ∈ (getRemainingServers ctx mapping lookupIP).1) ∧
  ((fetchAndExtractFiles ctx client zipURL).2 = None →
   (strictResolve ctx client lookupIP).2 = None →
   ∀ host,
     (bestEffortResolve ctx
        (st_mapping (afterArchivePass ctx client lookupIP)) lookupIP).1.1 !! host
       = Some [] →
     ∃ server,
       server ∈ (findSurfsharkServersFromZip ctx client lookupIP).1.1 ∧
       IPs server = []).
Proof.
  split.
  - intros mapping host Hhost.
    by apply (remaining_entry_emitted ctx mapping lookupIP host []).
  - intros Hfetch Hstrict host Hhost. eexists. split.
    + apply remaining_server_returned; [done..|].
      by apply (remaining_entry_emitted _ _ _ host []).
    + reflexivity.
Qed.

(** C8 (as the code has it): an error of the strict call, a cancellation
    included, comes back as the error of
    [findSurfsharkServersFromZip], with no server; an error of the
    best-effort call is dropped: the run succeeds, and every entry of the
    mapping that call returned has its server in the list. *)
Theorem best_effort_error_dropped ctx client lookupIP :
  (fetchAndExtractFiles ctx client zipURL).2 = None →
  (∀ err,
     (strictResolve ctx client lookupIP).2 = Some err →
     findSurfsharkServersFromZip ctx client lookupIP =
     ([], archiveWarnings ctx client, Some err)) ∧
  ((strictResolve ctx client lookupIP).2 = None →
   (findSurfsharkServersFromZip ctx client lookupIP).2 = None ∧
   ∀ host ips,
     (bestEffortResolve ctx
        (st_mapping (afterArchivePass ctx client lookupIP)) lookupIP).1.1 !! host
       = Some ips →
     remainingServer (st_mapping (afterArchivePass ctx client lookupIP)) (host, ips)
       ∈ (findSurfsharkServersFromZip ctx client lookupIP).1.1).
Proof.
  intros Hfetch. split.
  - intros err Hstrict.
    by rewrite findSurfsharkServersFromZip_unfold, Hfetch, Hstrict.
  - intros Hstrict. split.
    + by rewrite findSurfsharkServersFromZip_success.
    + intros host ips Hhost. apply remaining_server_returned; [done..|].
      by apply remaining_entry_emitted.
Qed.

End TablePass.

(** ** The stored state *)

Section Store.
Context `{Collaborators}.

Lemma log_warnings (warnings : list string) :
  ∀ u,
    let u' := foldl (λ u warning, logger_Warn u ("Surfshark: " +:+ warning))
                u warnings in
    logged u' = logged u ++ (surfsharkLine <$> warnings) ∧
    servers_Surfshark u' = servers_Surfshark u ∧
    printed u' = printed u ∧
    options u' = options u ∧
    timeNow_Unix u' = timeNow_Unix u.
Proof.
  induction warnings as [|warning warnings IH]; intros u; cbn [foldl].
  - cbn. by rewrite app_nil_r.
  - cbn zeta in IH |- *.
    destruct (IH (logger_Warn u ("Surfshark: " +:+ warning)))
      as (-> & -> & -> & -> & ->).
    cbn. by rewrite <- app_assoc.
Qed.

Lemma logged_after_warnings (u : updater) (warnings : list string) :
  logged (if CLI (options u)
          then foldl (λ u warning, logger_Warn u ("Surfshark: " +:+ warning))
                 u warnings
          else u) =
  logged u ++ (if CLI (options u) then surfsharkLine <$> warnings else []).
Proof.
  destruct (CLI (options u)).
  - apply (log_warnings warnings u).
  - by rewrite app_nil_r.
Qed.

(** C10: [updateSurfshark] logs the warnings when the CLI option is set,
    and only then, on failed runs as on successful ones; on an error it
    returns the error wrapped, with the stored servers and timestamp as
    they were and nothing printed; on success it stores the servers and
    the current time. *)
Theorem stored_state_written_on_success_only (u : updater) ctx :
  let result := findSurfsharkServersFromZip ctx (client u) (lookupIP u) in
  let u' := (updateSurfshark u ctx).1 in
  logged u' =
    logged u ++ (if CLI (options u) then surfsharkLine <$> result.1.2 else []) ∧
  match result.2 with
  | Some err =>
      (updateSurfshark u ctx).2 =
        Some (fmt_Errorf_w "cannot update Surfshark servers: " err) ∧
      servers_Surfshark u' = servers_Surfshark u ∧
      printed u' = printed u
  | None =>
      (updateSurfshark u ctx).2 = None ∧
      servers_Surfshark u' =
        {| Timestamp := timeNow_Unix u; Servers := result.1.1 |} ∧
      printed u' =
        printed u ++
        (if Stdout (options u) then [stringifySurfsharkServers result.1.1] else [])
  end.
Proof.
  cbn zeta. unfold updateSurfshark.
  destruct (findSurfsharkServersFromZip ctx (client u) (lookupIP u))
    as [[servers warnings] err].
  cbn [fst snd].
  pose proof (logged_after_warnings u warnings) as Hlogged.
  assert (Hkept :
    let v := if CLI (options u)
             then foldl (λ u warning, logger_Warn u ("Surfshark: " +:+ warning))
                    u warnings
             else u in
    servers_Surfshark v = servers_Surfshark u ∧ printed v = printed u ∧
    options v = options u ∧ timeNow_Unix v = timeNow_Unix u).
  { cbn zeta. destruct (CLI (options u)); [|done].
    by destruct (log_warnings warnings u) as (_ & -> & -> & -> & ->). }
  cbn zeta in Hkept. destruct Hkept as (Hservers & Hprinted & Hoptions & Htime).
  destruct err as [err|]; cbn [fst snd].
  - by rewrite Hlogged, Hservers, Hprinted.
  - rewrite Hoptions. destruct (Stdout (options u)); cbn;
      rewrite Hlogged, Hprinted, ?Htime; by rewrite ?app_nil_r.
Qed.

(** C7: when the strict resolver call over the archive's hostnames
    returns an error, [findSurfsharkServersFromZip] returns that error
    with no server, and [updateSurfshark] fails with an error that wraps
    it, leaving the stored servers and timestamp as they were. *)
Theorem strict_failure_aborts_update (u : updater) ctx err :
  (fetchAndExtractFiles ctx (client u) zipURL).2 = None →
  (strictResolve ctx (client u) (lookupIP u)).2 = Some err →
  findSurfsharkServersFromZip ctx (client u) (lookupIP u) =
    ([], archiveWarnings ctx (client u), Some err) ∧
  (∃ wrapped,
     (updateSurfshark u ctx).2 = Some wrapped ∧ Unwrap wrapped = Some err) ∧
  servers_Surfshark (updateSurfshark u ctx).1 = servers_Surfshark u.
Proof.
  intros Hfetch Hstrict.
  assert (Hfind : findSurfsharkServersFromZip ctx (client u) (lookupIP u) =
                  ([], archiveWarnings ctx (client u), Some err)).
  { by rewrite findSurfsharkServersFromZip_unfold, Hfetch, Hstrict. }
  split; [exact Hfind|].
  unfold updateSurfshark. rewrite Hfind. cbn [fst snd]. split.
  - eexists. split; reflexivity.
  - destruct (CLI (options u)); [|done].
    by destruct (log_warnings (archiveWarnings ctx (client u)) u) as (_ & -> & _).
Qed.

End Store.

(** ** One server per region *)

Section Uniqueness.
Context `{Collaborators}.

#[local] Opaque surfsharkSubdomainToRegion.

Lemma liveCodes_cons_live entry entries :
  entry.2 ≠ [] → liveCodes (entry :: entries) = codeOf entry.1 :: liveCodes entries.
Proof. intros Hlive. unfold liveCodes. by rewrite filter_cons, decide_True. Qed.

Lemma liveCodes_cons_dead entry entries :
  entry.2 = [] → liveCodes (entry :: entries) = liveCodes entries.
Proof.
  intros Hdead. unfold liveCodes. rewrite filter_cons, decide_False; [done|].
  by intros Hlive.
Qed.

Lemma liveCodes_perm entries entries' :
  entries ≡ₚ entries' → liveCodes entries ≡ₚ liveCodes entries'.
Proof. intros Hperm. unfold liveCodes. by rewrite Hperm. Qed.

(** When the entries with addresses have pairwise different codes, each
    of them is named from the working copy the loop started with. *)
Lemma reconcile_distinct_codes entries :
  ∀ st,
    NoDup (liveCodes entries) →
    st_servers (foldl reconcileStep st entries) =
      st_servers st ++
      (archiveServer (st_mapping st) <$> filter (λ entry, entry.2 ≠ []) entries) ∧
    ∀ c, st_mapping (foldl reconcileStep st entries) !! c =
         if decide (c ∈ liveCodes entries) then None else st_mapping st !! c.
Proof.
  induction entries as [|entry entries IH]; intros st Hnd; cbn [foldl].
  { split; [by rewrite app_nil_r|]. intros c. rewrite decide_False; [done|].
    apply not_elem_of_nil. }
  destruct (decide (entry.2 = [])) as [Hdead|Hlive].
  - rewrite liveCodes_cons_dead in * by done.
    destruct (reconcileStep_dead st entry Hdead) as (Hs1 & Hm1 & _).
    destruct (IH (reconcileStep st entry) Hnd) as (Hs2 & Hm2).
    rewrite Hs2, Hs1, Hm1, filter_cons, decide_False by (by intros ?).
    split; [done|]. intros c. by rewrite Hm2, Hm1.
  - rewrite liveCodes_cons_live in * by done.
    apply NoDup_cons in Hnd as [Hfresh Hnd].
    destruct (reconcileStep_live st entry Hlive) as (Hs1 & Hm1 & _).
    destruct (IH (reconcileStep st entry) Hnd) as (Hs2 & Hm2).
    rewrite Hs2, Hs1, filter_cons, decide_True by done.
    split.
    + rewrite fmap_cons, <- app_assoc. cbn [app]. do 2 f_equal.
      apply Forall_fmap_ext_1, Forall_forall. intros entry' Hin.
      unfold archiveServer. rewrite Hm1, decide_False; [done|].
      intros Heq. apply Hfresh. rewrite <- Heq.
      unfold liveCodes. apply list_elem_of_fmap. by exists entry'.
    + intros c. rewrite Hm2, Hm1.
      destruct (decide (c = codeOf entry.1)) as [->|Hne].
      * rewrite (decide_True (P := _ ∈ _ :: _)) by left. by destruct (decide _).
      * destruct (decide (c ∈ liveCodes entries)) as [Hin|Hnin].
        -- by rewrite decide_True by (by right).
        -- rewrite decide_False; [done|].
           intros [?|?]%elem_of_cons; done.
Qed.

(** The hostnames synthesized from the working copy, read back. *)
Lemma remainingHosts_code mapping host :
  host ∈ remainingHosts mapping →
  ∃ region, mapping !! codeOf host = Some region ∧
            host = codeOf host +:+ domainSuffix.
Proof.
  unfold remainingHosts. intros ((c & region) & -> & Hin)%list_elem_of_fmap.
  rewrite mapRange_perm in Hin. apply elem_of_map_to_list in Hin.
  cbn [fst]. unfold codeOf. rewrite TrimSuffix_append. eauto.
Qed.

(** C2 (as the code has it): the returned list has no two servers of the
    same region name when the resolved hosts of the archive have
    pairwise different subdomain codes, no such code that is missing
    from the table is itself a region name of the table, and the
    best-effort call answers only for hostnames it was asked about. *)
Theorem one_server_per_region ctx client lookupIP :
  let resolved := map_to_list (strictResolve ctx client lookupIP).1.1 in
  let remaining := st_mapping (afterArchivePass ctx client lookupIP) in
  NoDup (liveCodes resolved) →
  Forall (λ c, surfsharkSubdomainToRegion !! c = None → c ∉ surfsharkTable.*2)
    (liveCodes resolved) →
  Forall (λ host, host ∈ remainingHosts remaining)
    (map_to_list (bestEffortResolve ctx remaining lookupIP).1.1).*1 →
  NoDup (Region <$> (findSurfsharkServersFromZip ctx client lookupIP).1.1).
Proof.
  cbn zeta. intros Hcodes Hnames Hasked.
  rewrite findSurfsharkServersFromZip_unfold.
  destruct (fetchAndExtractFiles ctx client zipURL).2; [constructor|].
  destruct (strictResolve ctx client lookupIP).2; [constructor|].
  cbn [fst snd]. rewrite sort_Slice_perm.
  set (entries := mapRange RangeHostToIPs (strictResolve ctx client lookupIP).1.1) in *.
  assert (Hentries : entries ≡ₚ map_to_list (strictResolve ctx client lookupIP).1.1)
    by apply mapRange_perm.
  rewrite <- (liveCodes_perm _ _ Hentries) in Hcodes, Hnames.
  rewrite Forall_forall in Hnames.
  destruct (reconcile_distinct_codes entries
              {| st_mapping := surfsharkSubdomainToRegion;
                 st_servers := [];
                 st_warnings := archiveWarnings ctx client |} Hcodes)
    as (Hservers & Hmapping).
  cbn [st_mapping st_servers app] in Hservers, Hmapping.
  change (foldl reconcileStep _ entries)
    with (afterArchivePass ctx client lookupIP) in Hservers, Hmapping.
  set (remaining := st_mapping (afterArchivePass ctx client lookupIP)) in *.
  rewrite getRemainingServers_servers, Hservers.
  set (answers := mapRange RangeRemaining
                    (bestEffortResolve ctx remaining lookupIP).1.1) in *.
  assert (Hanswers : answers ≡ₚ
            map_to_list (bestEffortResolve ctx remaining lookupIP).1.1)
    by apply mapRange_perm.
  rewrite <- Hanswers in Hasked. rewrite Forall_forall in Hasked.
  assert (Hkeys : NoDup answers.*1).
  { rewrite Hanswers. apply NoDup_fst_map_to_list. }
  (* every answer is for a code of the working copy *)
  assert (Hanswer : ∀ entry, entry ∈ answers →
            ∃ region, surfsharkSubdomainToRegion !! codeOf entry.1 = Some region ∧
                      remaining !! codeOf entry.1 = Some region ∧
                      (codeOf entry.1 ∉ liveCodes entries) ∧
                      entry.1 = codeOf entry.1 +:+ domainSuffix).
  { intros entry Hin.
    destruct (remainingHosts_code remaining entry.1) as (region & Hregion & Hname).
    { apply Hasked, list_elem_of_fmap. by exists entry. }
    exists region. pose proof Hregion as Hregion'.
    rewrite Hmapping in Hregion'.
    destruct (decide (codeOf entry.1 ∈ liveCodes entries)); [done|]. auto. }
  set (name := λ c : string, default c (surfsharkSubdomainToRegion !! c)).
  assert (Hregions :
    Region <$> (archiveServer surfsharkSubdomainToRegion
                  <$> filter (λ entry, entry.2 ≠ []) entries) ++
               (remainingServer remaining <$> answers) =
    name <$> (liveCodes entries ++ ((λ entry, codeOf entry.1) <$> answers))).
  { rewrite !fmap_app. unfold liveCodes. rewrite <- !list_fmap_compose. f_equal.
    apply Forall_fmap_ext_1, Forall_forall. intros entry Hin.
    destruct (Hanswer entry Hin) as (region & Htable & Hregion & _).
    unfold name. cbn. by rewrite Htable, Hregion. }
  rewrite Hregions. clear Hregions.
  apply NoDup_fmap_2_strong.
  - intros c c' Hc Hc' Heq.
    assert (Hcases : ∀ x, x ∈ liveCodes entries ++ ((λ entry, codeOf entry.1) <$> answers) →
              (∃ region, surfsharkSubdomainToRegion !! x = Some region) ∨
              (surfsharkSubdomainToRegion !! x = None ∧ x ∉ surfsharkTable.*2)).
    { intros x [Hx|Hx]%elem_of_app.
      - destruct (surfsharkSubdomainToRegion !! x) as [region|] eqn:Hlookup;
          [by eauto|]. right. split; [done|]. by apply Hnames.
      - apply list_elem_of_fmap in Hx as (entry & -> & Hin).
        destruct (Hanswer entry Hin) as (region & Htable & _). eauto. }
    unfold name in Heq.
    destruct (Hcases c Hc) as [(region & Hr)|(Hr & Hout)],
             (Hcases c' Hc') as [(region' & Hr')|(Hr' & Hout')];
      rewrite Hr, Hr' in Heq; cbn in Heq; subst.
    + by apply (table_names_injective c c' region').
    + destruct Hout'. by apply (table_name_listed c).
    + destruct Hout. by apply (table_name_listed c').
    + done.
  - apply NoDup_app. split; [exact Hcodes|]. split.
    + intros c Hc (entry & -> & Hin)%list_elem_of_fmap.
      by destruct (Hanswer entry Hin) as (region & _ & _ & Hfresh & _).
    + change (λ entry : string * list IP, codeOf entry.1)
        with (codeOf ∘ @fst string (list IP)).
      rewrite (list_fmap_compose fst codeOf).
      apply NoDup_fmap_2_strong; [|exact Hkeys].
      intros host host' (entry & -> & Hin)%list_elem_of_fmap
        (entry' & -> & Hin')%list_elem_of_fmap Heq.
      destruct (Hanswer entry Hin) as (_ & _ & _ & _ & ->).
      destruct (Hanswer entry' Hin') as (_ & _ & _ & _ & ->).
      by rewrite Heq.
Qed.

End Uniqueness.

(** ** Runs of the model in closed environments *)

Ltac by_computation := apply (bool_decide_unpack _); vm_compute; exact I.

Section Runs.
Import Fixture.

(** C1, failing input: with an empty archive and a DNS that knows no
    name, all 166 codes of the table go to the best-effort call, none
    resolves, and the run returns 166 servers, each with an empty IP
    set. *)
Example silent_run_returns_servers_without_address :
  (@findSurfsharkServersFromZip silentWorld tt tt tt).2 = None ∧
  length (@findSurfsharkServersFromZip silentWorld tt tt tt).1.1 = 166 ∧
  Forall (λ server, IPs server = [])
    (@findSurfsharkServersFromZip silentWorld tt tt tt).1.1.
Proof.
  split; [vm_compute; reflexivity|]. split; [vm_compute; reflexivity|].
  by_computation.
Qed.

Lemma unresolved_table_host_gets_server_witness :
  (@bestEffortResolve silentWorld tt
     {[ "ae-dub" := "United Arab Emirates" ]} tt).1.1
    !! "ae-dub.prod.surfshark.com" = Some [] ∧
  {| Region :=
       default EmptyString
         (({[ "ae-dub" := "United Arab Emirates" ]} : gmap string string)
            !! codeOf "ae-dub.prod.surfshark.com");
     IPs := [] |}
    ∈ (@getRemainingServers silentWorld tt
         {[ "ae-dub" := "United Arab Emirates" ]} tt).1.
Proof.
  assert (Hunresolved :
    (@bestEffortResolve silentWorld tt
       {[ "ae-dub" := "United Arab Emirates" ]} tt).1.1
      !! "ae-dub.prod.surfshark.com" = Some [])
    by (vm_compute; reflexivity).
  split; [exact Hunresolved|].
  exact (proj1 (@unresolved_table_host_gets_server silentWorld tt tt tt)
           _ _ Hunresolved).
Defined.

(** C2, counterexample: two resolved hosts of the archive,
    [zz-new.prod.surfshark.com] and [zz-new], have the same code, which
    the table does not know; both servers are named [zz-new]. *)
Lemma bare_name_run_repeats_region :
  ¬ NoDup (Region <$> (@findSurfsharkServersFromZip bareNameWorld tt tt tt).1.1).
Proof. by_computation. Qed.

(** A code missing from the table and spelled like one of its region
    names collides with the server of the table pass. *)
Example homonym_run_repeats_region :
  ¬ NoDup (Region <$> (@findSurfsharkServersFromZip homonymWorld tt tt tt).1.1).
Proof. by_computation. Qed.

Lemma one_server_per_region_witness :
  NoDup (Region <$> (@findSurfsharkServersFromZip mixedWorld tt tt tt).1.1).
Proof.
  apply (@one_server_per_region mixedWorld tt tt tt); by_computation.
Defined.

Lemma servers_sorted_by_region_witness :
  (@findSurfsharkServersFromZip mixedWorld tt tt tt).2 = None ∧
  (@findSurfsharkServersFromZip mixedWorld tt tt tt).1.1 ≡ₚ
  st_servers (@afterArchivePass mixedWorld tt tt tt) ++
  (@getRemainingServers mixedWorld tt
     (st_mapping (@afterArchivePass mixedWorld tt tt tt)) tt).1.
Proof.
  split; [vm_compute; reflexivity|].
  apply (proj2 (@servers_sorted_by_region mixedWorld tt tt tt)).
  vm_compute; reflexivity.
Defined.

Lemma tcp_variant_skipped_witness :
  @extractStep mixedWorld (["h"], ["w"])
    ("al-tia_tcp.ovpn", "remote al-tia.prod.surfshark.com") = (["h"], ["w"]) ∧
  @extractHosts mixedWorld
    (@mapRange mixedWorld RangeContents _
       ({[ "al-tia" +:+ "_tcp.ovpn" := "remote al-tia.prod.surfshark.com";
           "al-tia" +:+ "_udp.ovpn" := "remote al-tia.prod.surfshark.com" ]}
        : gmap string string))
  = ["al-tia.prod.surfshark.com"].
Proof.
  split.
  - apply (proj1 (@tcp_variant_skipped mixedWorld)). vm_compute; reflexivity.
  - apply (proj2 (proj2 (@tcp_variant_skipped mixedWorld))
             "al-tia" _ _ _ EmptyString).
    vm_compute; reflexivity.
Defined.

(** C5, counterexample: two UDP files that name the same host put that
    host twice in the list handed to the resolver. *)
Lemma twin_files_repeat_host : ¬ NoDup (@archiveHosts twinWorld tt tt).
Proof. by_computation. Qed.

Lemma parse_failure_downgraded_to_warning_witness :
  ∃ before after,
    @mapRange mixedWorld RangeContents _ mixedArchive =
      before ++ ("readme.ovpn", "no host here") :: after ∧
    foldl (@extractStep mixedWorld) ([], [])
      (@mapRange mixedWorld RangeContents _ mixedArchive) =
    (@extractHosts mixedWorld before ++ @extractHosts mixedWorld after,
     @extractWarnings mixedWorld before ++
     [Error errRemoteNotFound +:+ " in " +:+ "readme.ovpn"] ++
     @extractWarnings mixedWorld after).
Proof.
  apply (proj1 (@parse_failure_downgraded_to_warning mixedWorld tt tt tt)
           mixedArchive "readme.ovpn" "no host here" EmptyString errRemoteNotFound);
    vm_compute; reflexivity.
Defined.

Lemma strict_failure_aborts_update_witness :
  @findSurfsharkServersFromZip outageWorld tt tt tt =
    ([], @archiveWarnings outageWorld tt tt, Some ErrResolutionExhausted) ∧
  (∃ wrapped,
     (@updateSurfshark outageWorld (freshUpdater outageWorld true true tt tt) tt).2
       = Some wrapped ∧
     Unwrap wrapped = Some ErrResolutionExhausted) ∧
  servers_Surfshark
    (@updateSurfshark outageWorld (freshUpdater outageWorld true true tt tt) tt).1
  = servers_Surfshark (freshUpdater outageWorld true true tt tt).
Proof.
  apply (@strict_failure_aborts_update outageWorld
           (freshUpdater outageWorld true true tt tt) tt ErrResolutionExhausted);
    vm_compute; reflexivity.
Defined.

(** C8, counterexample: the best-effort call returns the cancellation
    error together with the one name it had resolved; the run succeeds
    and returns the servers of the archive and the server of that
    name. *)
Lemma cancelled_run_succeeds :
  (@bestEffortResolve cancelledWorld tt
     (st_mapping (@afterArchivePass cancelledWorld tt tt tt)) tt).2
    = Some context_Canceled ∧
  @findSurfsharkServersFromZip cancelledWorld tt tt tt =
  ([{| Region := "Albania"; IPs := [ip 10 0 0 1; ip 10 0 0 2] |};
    {| Region := "Austria"; IPs := [ip 10 0 1 1] |};
    {| Region := "zz-new"; IPs := [ip 10 0 9 9] |}],
   ["remote host not found in readme.ovpn";
    "subdomain " +:+ quote "zz-new" +:+ " not found in Surfshark mapping"],
   None).
Proof. split; vm_compute; reflexivity. Qed.

Lemma best_effort_error_dropped_witness :
  @findSurfsharkServersFromZip outageWorld tt tt tt =
    ([], @archiveWarnings outageWorld tt tt, Some ErrResolutionExhausted) ∧
  (@findSurfsharkServersFromZip cancelledWorld tt tt tt).2 = None ∧
  remainingServer (st_mapping (@afterArchivePass cancelledWorld tt tt tt))
    ("at-vie.prod.surfshark.com", [ip 10 0 1 1])
    ∈ (@findSurfsharkServersFromZip cancelledWorld tt tt tt).1.1.
Proof.
  split.
  - apply (proj1 (@best_effort_error_dropped outageWorld tt tt tt
                    ltac:(vm_compute; reflexivity))).
    vm_compute; reflexivity.
  - pose proof (proj2 (@best_effort_error_dropped cancelledWorld tt tt tt
                         ltac:(vm_compute; reflexivity))
                  ltac:(vm_compute; reflexivity)) as [Hsuccess Hservers].
    split; [exact Hsuccess|]. apply Hservers. vm_compute; reflexivity.
Defined.

Lemma unmapped_code_falls_back_to_code_witness :
  {| Region := codeOf "zz-new.prod.surfshark.com";
     IPs := uniqueSortedIPs [ip 10 0 9 9] |}
    ∈ (@findSurfsharkServersFromZip mixedWorld tt tt tt).1.1 ∧
  @unmappedWarning mixedWorld (codeOf "zz-new.prod.surfshark.com")
    ∈ (@findSurfsharkServersFromZip mixedWorld tt tt tt).1.2.
Proof.
  pose proof (proj2 (@unmapped_code_falls_back_to_code mixedWorld tt tt tt)
                ltac:(vm_compute; reflexivity) ltac:(vm_compute; reflexivity)
                "zz-new.prod.surfshark.com" [ip 10 0 9 9]
                ltac:(vm_compute; reflexivity) ltac:(discriminate)) as Hrun.
  assert (Htable :
    surfsharkSubdomainToRegion !! codeOf "zz-new.prod.surfshark.com" = None)
    by (vm_compute; reflexivity).
  rewrite Htable in Hrun. exact Hrun.
Defined.

(** A failed and a successful update, side by side. *)
Example update_runs :
  let failed :=
    @updateSurfshark outageWorld (freshUpdater outageWorld true true tt tt) tt in
  let done :=
    @updateSurfshark mixedWorld (freshUpdater mixedWorld false false tt tt) tt in
  failed.2 =
    Some (wrapError "cannot update Surfshark servers: resolution exhausted"
            ErrResolutionExhausted) ∧
  logged failed.1 = ["Surfshark: remote host not found in readme.ovpn"] ∧
  Timestamp (servers_Surfshark failed.1) = 1600000000%Z ∧
  done.2 = None ∧
  logged done.1 = [] ∧
  Timestamp (servers_Surfshark done.1) = 1627000000%Z ∧
  length (Servers (servers_Surfshark done.1)) = 167.
Proof. cbn zeta. repeat split; vm_compute; reflexivity. Qed.

End Runs.

(** * Further properties *)

(** ** Extraction, file by file *)

Section ExtractionByFile.
Context `{Collaborators}.

Lemma extractStep_one (file : string * string) :
  extractStep ([], []) file = (option_list (parsedHost file), fileWarnings file).
Proof.
  destruct file as [fileName content].
  unfold extractStep, parsedHost, fileWarnings. cbn [fst snd].
  destruct (GoStrings.HasSuffix fileName "_tcp.ovpn"); [done|].
  destruct (extractHostFromOVPN content) as [[host warning] [err|]]; cbn [fst snd];
    by destruct (0 <? String.length warning)%nat; cbn; rewrite ?app_nil_r.
Qed.

Lemma extractHosts_closed (files : list (string * string)) :
  extractHosts files = omap parsedHost files.
Proof.
  induction files as [|file files IH]; [done|].
  rewrite extractHosts_cons, extractStep_one, IH. cbn [fst omap list_omap].
  by destruct (parsedHost file).
Qed.

Lemma extractWarnings_closed (files : list (string * string)) :
  extractWarnings files = files ≫= fileWarnings.
Proof.
  induction files as [|file files IH]; [done|].
  by rewrite extractWarnings_cons, extractStep_one, IH.
Qed.

(** X1: whatever the order in which the archive's files are visited, the
    hostnames handed to the strict resolver call are, up to order, the
    hosts of the accepted files of the archive, and the extraction
    warnings are, up to order, the warnings of its files. *)
Theorem extraction_independent_of_visit_order ctx client :
  archiveHosts ctx client ≡ₚ
    omap parsedHost (map_to_list (fetchAndExtractFiles ctx client zipURL).1) ∧
  archiveWarnings ctx client ≡ₚ
    map_to_list (fetchAndExtractFiles ctx client zipURL).1 ≫= fileWarnings.
Proof.
  unfold archiveHosts, archiveWarnings.
  rewrite extractHosts_closed, extractWarnings_closed.
  by rewrite !mapRange_perm.
Qed.

(** X2: every file that is not a TCP variant yields either one hostname
    or one parse error, never both and never neither: the hostnames and
    the parse errors together are as many as those files. *)
Theorem eligible_files_partition (files : list (string * string)) :
  length (extractHosts files) + length (omap parseError files) =
  length (filter (λ file, GoStrings.HasSuffix file.1 "_tcp.ovpn" = false) files).
Proof.
  rewrite extractHosts_closed.
  induction files as [|[fileName content] files IH]; [done|].
  rewrite filter_cons. cbn [omap list_omap].
  unfold parsedHost at 1, parseError at 1. cbn [fst snd].
  destruct (GoStrings.HasSuffix fileName "_tcp.ovpn").
  - rewrite decide_False by done. exact IH.
  - rewrite decide_True by done.
    destruct (extractHostFromOVPN content) as [[host warning] [err|]];
      cbn [fst snd length]; lia.
Qed.

(** X3: a file the parser accepts keeps its host, and keeps its advisory
    warning when that warning is not empty; the files visited before and
    after it contribute what they contribute on their own. *)
Theorem accepted_file_keeps_host_and_warning
    (contents : gmap string string) fileName content host warning :
  contents !! fileName = Some content →
  GoStrings.HasSuffix fileName "_tcp.ovpn" = false →
  extractHostFromOVPN content = (host, warning, None) →
  ∃ before after,
    mapRange RangeContents contents = before ++ (fileName, content) :: after ∧
    foldl extractStep ([], []) (mapRange RangeContents contents) =
    (extractHosts before ++ [host] ++ extractHosts after,
     extractWarnings before ++
     (if (0 <? String.length warning)%nat then [warning] else []) ++
     extractWarnings after).
Proof.
  intros Hfile Heligible Hparse.
  assert (Hin : (fileName, content) ∈ mapRange RangeContents contents).
  { rewrite mapRange_perm. by apply elem_of_map_to_list. }
  apply list_elem_of_split in Hin as (before & after & Hsplit).
  exists before, after. split; [exact Hsplit|].
  rewrite Hsplit, extract_foldl. cbn [fst snd app].
  rewrite extractHosts_app, extractWarnings_app.
  rewrite extractHosts_cons, extractWarnings_cons, extractStep_one.
  unfold parsedHost, fileWarnings. cbn [fst snd].
  rewrite Heligible, Hparse. cbn [fst snd option_list].
  by rewrite app_nil_r.
Qed.

End ExtractionByFile.

(** ** The archive pass, entry by entry *)

Section ArchivePassByEntry.
Context `{Collaborators}.

#[local] Opaque surfsharkSubdomainToRegion.

(** The working copy at the end of the loop: the codes of the entries
    with addresses are gone, the others are as they were. *)
Lemma reconcile_mapping entries :
  ∀ st c,
    st_mapping (foldl reconcileStep st entries) !! c =
    if decide (c ∈ liveCodes entries) then None else st_mapping st !! c.
Proof.
  induction entries as [|entry entries IH]; intros st c; cbn [foldl].
  { rewrite decide_False; [done|]. apply not_elem_of_nil. }
  rewrite IH. destruct (decide (entry.2 = [])) as [Hdead|Hlive].
  - rewrite liveCodes_cons_dead by done.
    destruct (reconcileStep_dead st entry Hdead) as (_ & -> & _). done.
  - rewrite liveCodes_cons_live by done.
    destruct (reconcileStep_live st entry Hlive) as (_ & Hm & _). rewrite Hm.
    destruct (decide (c = codeOf entry.1)) as [->|Hne].
    + rewrite (decide_True (P := _ ∈ _ :: _)) by left. by destruct (decide _).
    + destruct (decide (c ∈ liveCodes entries)) as [Hin|Hnin].
      * by rewrite decide_True by (by right).
      * rewrite decide_False; [done|]. by intros [?|?]%elem_of_cons.
Qed.

Lemma reconcile_server_count entries :
  ∀ st,
    length (st_servers (foldl reconcileStep st entries)) =
    length (st_servers st) + length (filter (λ entry, entry.2 ≠ []) entries).
Proof.
  induction entries as [|entry entries IH]; intros st; cbn [foldl].
  { cbn. lia. }
  rewrite IH, filter_cons. destruct (decide (entry.2 = [])) as [Hdead|Hlive].
  - destruct (reconcileStep_dead st entry Hdead) as (-> & _).
    rewrite decide_False by (by intros ?). done.
  - destruct (reconcileStep_live st entry Hlive) as (-> & _).
    rewrite decide_True by done. rewrite length_app. cbn [length]. lia.
Qed.


(** Where a server of the pass comes from. *)
Lemma reconcile_provenance entries :
  ∀ st server,
    server ∈ st_servers (foldl reconcileStep st entries) →
    server ∈ st_servers st ∨
    ∃ host ips,
      (host, ips) ∈ entries ∧ ips ≠ [] ∧
      IPs server = uniqueSortedIPs ips ∧
      (Region server = codeOf host ∨
       st_mapping st !! codeOf host = Some (Region server)).
Proof.
  induction entries as [|[host ips] entries IH]; intros st server; cbn [foldl].
  { by left. }
  intros [Hin|(host' & ips' & Hin & Hlive & Hips & Hregion)]%IH.
  - destruct (decide (ips = [])) as [->|Hlive].
    + rewrite reconcileStep_no_IPs in Hin. by left.
    + destruct (reconcileStep_live st (host, ips) Hlive) as (Hs & _).
      rewrite Hs in Hin. apply elem_of_app in Hin as [Hin|Hin]; [by left|].
      apply list_elem_of_singleton in Hin as ->. right.
      exists host, ips. split; [left|]. split; [done|]. split; [done|].
      unfold archiveServer. cbn [fst snd Region].
      destruct (st_mapping st !! codeOf host); cbn; auto.
  - right. exists host', ips'. split; [by right|]. split; [done|]. split; [done|].
    destruct Hregion as [?|Hregion]; [by left|]. right.
    destruct (decide (ips = [])) as [->|Hlive'].
    + by rewrite reconcileStep_no_IPs in Hregion.
    + destruct (reconcileStep_live st (host, ips) Hlive') as (_ & Hm & _).
      rewrite Hm in Hregion. by destruct (decide _).
Qed.

(** Every entry with addresses gets its server. *)
Lemma reconcile_completeness entries :
  ∀ st host ips,
    (host, ips) ∈ entries → ips ≠ [] →
    ∃ region,
      {| Region := region; IPs := uniqueSortedIPs ips |}
        ∈ st_servers (foldl reconcileStep st entries) ∧
      (region = codeOf host ∨ st_mapping st !! codeOf host = Some region) ∧
      (st_mapping st !! codeOf host = None → region = codeOf host).
Proof.
  intros st host ips (before & after & ->)%list_elem_of_split Hlive.
  rewrite foldl_app. cbn [foldl].
  set (st1 := foldl reconcileStep st before).
  destruct (reconcileStep_live st1 (host, ips) Hlive) as (Hs & _).
  destruct (reconcile_grows after (reconcileStep st1 (host, ips)))
    as ((added & ->) & _).
  rewrite Hs. unfold archiveServer. cbn [fst snd].
  exists (default (codeOf host) (st_mapping st1 !! codeOf host)).
  split; [rewrite !elem_of_app, list_elem_of_singleton; auto|].
  unfold st1. rewrite reconcile_mapping.
  destruct (decide (codeOf host ∈ liveCodes before)); cbn; [auto|].
  destruct (st_mapping st !! codeOf host); cbn; auto.
  split; [auto | done].
Qed.

End ArchivePassByEntry.

(** ** Whole runs of the archive search *)

Section WholeRun.
Context `{Collaborators}.

#[local] Opaque surfsharkSubdomainToRegion.

Lemma liveCodes_resolved ctx client lookupIP c :
  c ∈ liveCodes (mapRange RangeHostToIPs (strictResolve ctx client lookupIP).1.1) ↔
  c ∈ liveCodes (map_to_list (strictResolve ctx client lookupIP).1.1).
Proof. by rewrite (liveCodes_perm _ _ (mapRange_perm _ _ _)). Qed.

Lemma remaining_lookup ctx client lookupIP c :
  st_mapping (afterArchivePass ctx client lookupIP) !! c =
  if decide (c ∈ liveCodes (map_to_list (strictResolve ctx client lookupIP).1.1))
  then None else surfsharkSubdomainToRegion !! c.
Proof.
  unfold afterArchivePass. rewrite reconcile_mapping. cbn [st_mapping].
  destruct (decide (c ∈ liveCodes (mapRange _ _))) as [Hin|Hnin];
    rewrite liveCodes_resolved in *.
  - by rewrite decide_True.
  - by rewrite decide_False.
Qed.

(** X4: the hostnames the table pass asks the resolver about are the
    hostnames of the table's codes that no resolved archive host with an
    address carries, each once. *)
Theorem table_pass_asks_unmatched_codes ctx client lookupIP :
  (∀ host,
     host ∈ remainingHosts (st_mapping (afterArchivePass ctx client lookupIP)) ↔
     ∃ c region,
       surfsharkSubdomainToRegion !! c = Some region ∧
       (c ∉ liveCodes (map_to_list (strictResolve ctx client lookupIP).1.1)) ∧
       host = c +:+ domainSuffix) ∧
  NoDup (remainingHosts (st_mapping (afterArchivePass ctx client lookupIP))).
Proof.
  split.
  - intros host. unfold remainingHosts. rewrite list_elem_of_fmap. split.
    + intros ([c region] & -> & Hin). rewrite mapRange_perm in Hin.
      apply elem_of_map_to_list in Hin. rewrite remaining_lookup in Hin.
      destruct (decide _); [done|]. by exists c, region.
    + intros (c & region & Htable & Hfresh & ->). exists (c, region).
      split; [done|]. rewrite mapRange_perm. apply elem_of_map_to_list.
      by rewrite remaining_lookup, decide_False.
  - unfold remainingHosts.
    change (λ kv : string * string, kv.1 +:+ domainSuffix)
      with ((λ c, c +:+ domainSuffix) ∘ @fst string string).
    rewrite (list_fmap_compose fst).
    apply NoDup_fmap_2_strong.
    + intros c c' _ _. apply append_inj_l.
    + rewrite mapRange_perm. apply NoDup_fst_map_to_list.
Qed.

(** X5: a successful run returns one server for each resolved archive
    host that has an address and one for each entry of the best-effort
    result, and no other. *)
Theorem successful_run_server_count ctx client lookupIP :
  (fetchAndExtractFiles ctx client zipURL).2 = None →
  (strictResolve ctx client lookupIP).2 = None →
  length (findSurfsharkServersFromZip ctx client lookupIP).1.1 =
  length (filter (λ entry, entry.2 ≠ [])
            (map_to_list (strictResolve ctx client lookupIP).1.1)) +
  size (bestEffortResolve ctx
          (st_mapping (afterArchivePass ctx client lookupIP)) lookupIP).1.1.
Proof.
  intros Hfetch Hstrict.
  rewrite findSurfsharkServersFromZip_success by done. cbn [fst snd].
  rewrite sort_Slice_perm, length_app, getRemainingServers_servers, length_fmap.
  unfold afterArchivePass at 1. rewrite reconcile_server_count. cbn [st_servers length].
  rewrite !mapRange_perm. by rewrite length_map_to_list.
Qed.

(** X6: every server a run returns is built from an entry of one of the
    two resolver results: from a resolved archive host with an address,
    with that host's addresses and named by the host's code or by the
    table's name for that code; or from an entry of the best-effort
    result. *)
Theorem returned_server_has_source ctx client lookupIP server :
  server ∈ (findSurfsharkServersFromZip ctx client lookupIP).1.1 →
  (∃ host ips,
     (strictResolve ctx client lookupIP).1.1 !! host = Some ips ∧ ips ≠ [] ∧
     IPs server = uniqueSortedIPs ips ∧
     (Region server = codeOf host ∨
      surfsharkSubdomainToRegion !! codeOf host = Some (Region server))) ∨
  (∃ host ips,
     (bestEffortResolve ctx
        (st_mapping (afterArchivePass ctx client lookupIP)) lookupIP).1.1 !! host
       = Some ips ∧
     server =
       remainingServer (st_mapping (afterArchivePass ctx client lookupIP)) (host, ips)).
Proof.
  rewrite findSurfsharkServersFromZip_unfold.
  destruct (fetchAndExtractFiles ctx client zipURL).2;
    [by intros ?%elem_of_nil|].
  destruct (strictResolve ctx client lookupIP).2;
    [by intros ?%elem_of_nil|].
  cbn [fst snd]. rewrite sort_Slice_perm, elem_of_app. intros [Hin|Hin].
  - left. unfold afterArchivePass in Hin.
    apply reconcile_provenance in Hin
      as [Hin|(host & ips & Hin & Hlive & Hips & Hregion)].
    { by apply elem_of_nil in Hin. }
    exists host, ips. rewrite mapRange_perm in Hin.
    by apply elem_of_map_to_list in Hin.
  - right. rewrite getRemainingServers_servers in Hin.
    apply list_elem_of_fmap in Hin as ([host ips] & -> & Hin).
    exists host, ips. rewrite mapRange_perm in Hin.
    by apply elem_of_map_to_list in Hin.
Qed.

(** X7: on a successful run every resolved archive host with an address
    has a server with its own addresses in the returned list, named by
    its code or by the table's name for the code, and by the code when
    the table does not have it; a host that does not end in the
    provider's suffix is its own code. *)
Theorem resolved_archive_host_gets_server ctx client lookupIP host ips :
  (fetchAndExtractFiles ctx client zipURL).2 = None →
  (strictResolve ctx client lookupIP).2 = None →
  (strictResolve ctx client lookupIP).1.1 !! host = Some ips →
  ips ≠ [] →
  (∃ region,
     {| Region := region; IPs := uniqueSortedIPs ips |}
       ∈ (findSurfsharkServersFromZip ctx client lookupIP).1.1 ∧
     (region = codeOf host ∨
      surfsharkSubdomainToRegion !! codeOf host = Some region) ∧
     (surfsharkSubdomainToRegion !! codeOf host = None → region = codeOf host)) ∧
  (GoStrings.HasSuffix host domainSuffix = false → codeOf host = host).
Proof.
  intros Hfetch Hstrict Hhost Hlive. split.
  - destruct (reconcile_completeness
                (mapRange RangeHostToIPs (strictResolve ctx client lookupIP).1.1)
                {| st_mapping := surfsharkSubdomainToRegion;
                   st_servers := [];
                   st_warnings := archiveWarnings ctx client |} host ips)
      as (region & Hin & Hname & Hfallback); [|done|].
    { rewrite mapRange_perm. by apply elem_of_map_to_list. }
    exists region. split; [|done].
    by apply archive_server_returned.
  - intros Hsuffix. unfold codeOf, GoStrings.TrimSuffix. by rewrite Hsuffix.
Qed.


(** X9: on a successful run, an entry of the best-effort result for a
    hostname that was asked about gives a server named by the table's
    name of the code recovered from the hostname; an entry whose code is
    not in the working copy gives a server whose region name is the empty
    string. *)
Theorem table_pass_server_names ctx client lookupIP host ips :
  (fetchAndExtractFiles ctx client zipURL).2 = None →
  (strictResolve ctx client lookupIP).2 = None →
  (bestEffortResolve ctx
     (st_mapping (afterArchivePass ctx client lookupIP)) lookupIP).1.1 !! host
    = Some ips →
  (host ∈ remainingHosts (st_mapping (afterArchivePass ctx client lookupIP)) →
   ∃ region,
     surfsharkSubdomainToRegion !! codeOf host = Some region ∧
     host = codeOf host +:+ domainSuffix ∧
     {| Region := region; IPs := uniqueSortedIPs ips |}
       ∈ (findSurfsharkServersFromZip ctx client lookupIP).1.1) ∧
  (st_mapping (afterArchivePass ctx client lookupIP) !! codeOf host = None →
   {| Region := EmptyString; IPs := uniqueSortedIPs ips |}
     ∈ (findSurfsharkServersFromZip ctx client lookupIP).1.1).
Proof.
  intros Hfetch Hstrict Hhost.
  pose proof (remaining_server_returned ctx client lookupIP _ Hfetch Hstrict
                (remaining_entry_emitted _ _ _ host ips Hhost)) as Hin.
  unfold remainingServer in Hin. cbn [fst snd] in Hin. split.
  - intros (region & Hregion & Hname)%remainingHosts_code.
    exists region. rewrite Hregion in Hin. split; [|done].
    rewrite remaining_lookup in Hregion. by destruct (decide _).
  - intros Hnone. by rewrite Hnone in Hin.
Qed.

End WholeRun.

(** ** The updater, further *)

Section UpdaterFrame.
Context `{Collaborators}.

Lemma log_warnings_frame (warnings : list string) :
  ∀ u,
    let u' := foldl (λ u warning, logger_Warn u ("Surfshark: " +:+ warning))
                u warnings in
    options u' = options u ∧ client u' = client u ∧
    lookupIP u' = lookupIP u ∧ timeNow_Unix u' = timeNow_Unix u.
Proof.
  induction warnings as [|warning warnings IH]; intros u; cbn [foldl]; [done|].
  cbn zeta in IH |- *.
  by destruct (IH (logger_Warn u ("Surfshark: " +:+ warning))) as (-> & -> & -> & ->).
Qed.

(** X10: when the archive cannot be fetched, [findSurfsharkServersFromZip]
    returns the fetch error with no server and no warning, and
    [updateSurfshark] returns the updater exactly as it was, log
    included, with the error wrapped. *)
Theorem fetch_failure_leaves_updater (u : updater) ctx err :
  (fetchAndExtractFiles ctx (client u) zipURL).2 = Some err →
  findSurfsharkServersFromZip ctx (client u) (lookupIP u) = ([], [], Some err) ∧
  updateSurfshark u ctx =
    (u, Some (fmt_Errorf_w "cannot update Surfshark servers: " err)).
Proof.
  intros Hfetch.
  assert (Hfind : findSurfsharkServersFromZip ctx (client u) (lookupIP u) =
                  ([], [], Some err)).
  { by rewrite findSurfsharkServersFromZip_unfold, Hfetch. }
  split; [exact Hfind|].
  unfold updateSurfshark. rewrite Hfind. cbn [foldl].
  by destruct (CLI (options u)).
Qed.

(** X11: [updateSurfshark] never changes the updater's options, HTTP
    client, lookup function or clock, and it only ever appends to what
    has been logged and printed. *)
Theorem updateSurfshark_frame (u : updater) ctx :
  let u' := (updateSurfshark u ctx).1 in
  options u' = options u ∧ client u' = client u ∧
  lookupIP u' = lookupIP u ∧ timeNow_Unix u' = timeNow_Unix u ∧
  (∃ lines, logged u' = logged u ++ lines) ∧
  (∃ lines, printed u' = printed u ++ lines).
Proof.
  cbn zeta. unfold updateSurfshark.
  destruct (findSurfsharkServersFromZip ctx (client u) (lookupIP u))
    as [[servers warnings] err].
  set (v := if CLI (options u)
            then foldl (λ u warning, logger_Warn u ("Surfshark: " +:+ warning))
                   u warnings
            else u).
  assert (Hv : options v = options u ∧ client v = client u ∧
               lookupIP v = lookupIP u ∧ timeNow_Unix v = timeNow_Unix u ∧
               (∃ lines, logged v = logged u ++ lines) ∧ printed v = printed u).
  { unfold v. destruct (CLI (options u)).
    - destruct (log_warnings_frame warnings u) as (-> & -> & -> & ->).
      destruct (log_warnings warnings u) as (-> & _ & -> & _). eauto 10.
    - repeat split; try done. exists []. by rewrite app_nil_r. }
  destruct Hv as (Ho & Hc & Hl & Ht & Hlog & Hp).
  destruct err as [err|]; cbn [fst].
  - repeat split; try done. exists []. by rewrite Hp, app_nil_r.
  - destruct (Stdout (options v)); cbn; rewrite ?Hp; repeat split; try done;
      eauto. exists []. by rewrite app_nil_r.
Qed.

End UpdaterFrame.

(** ** The rendering of the server list *)

Section Rendering.
Context `{Collaborators}.

Lemma string_append_assoc (s t u : string) : (s +:+ t) +:+ u = s +:+ (t +:+ u).
Proof.
  induction s as [|c s IH]; [reflexivity|].
  change (String c ((s +:+ t) +:+ u) = String c (s +:+ (t +:+ u))).
  by rewrite IH.
Qed.

Lemma string_append_nil_r (s : string) : s +:+ EmptyString = s.
Proof.
  induction s as [|c s IH]; [reflexivity|].
  change (String c (s +:+ EmptyString) = String c s). by rewrite IH.
Qed.

Lemma concat_lines_cons (line : string) (lines : list string) :
  String.concat EmptyString (line :: lines) =
  line +:+ String.concat EmptyString lines.
Proof. destruct lines; cbn; [by rewrite string_append_nil_r | done]. Qed.

Lemma stringify_fold (servers : list SurfsharkServer) :
  ∀ s,
    foldl (λ s server,
             s +:+ tab +:+ tab +:+ SurfsharkServer_String server +:+ "," +:+ newline)
          s servers =
    s +:+ String.concat EmptyString (stringifyLine <$> servers).
Proof.
  induction servers as [|server servers IH]; intros s.
  - cbn. by rewrite string_append_nil_r.
  - cbn [foldl]. rewrite IH, fmap_cons, concat_lines_cons.
    unfold stringifyLine. by rewrite !string_append_assoc.
Qed.

(** X12: the rendering is the two header lines, then one line per server
    in the order of the list, each made of two tabs, the server's own
    rendering and a comma, then the two closing lines; its length is the
    sum of the lengths of those parts. *)
Theorem stringify_layout (servers : list SurfsharkServer) :
  stringifySurfsharkServers servers =
    stringifyHeader +:+
    String.concat EmptyString (stringifyLine <$> servers) +:+
    stringifyFooter ∧
  String.length (stringifySurfsharkServers servers) =
    String.length stringifyHeader +
    sum_list (String.length ∘ stringifyLine <$> servers) +
    String.length stringifyFooter.
Proof.
  assert (Hlayout : stringifySurfsharkServers servers =
            stringifyHeader +:+
            String.concat EmptyString (stringifyLine <$> servers) +:+
            stringifyFooter).
  { unfold stringifySurfsharkServers, stringifyHeader, stringifyFooter.
    rewrite stringify_fold. by rewrite !string_append_assoc. }
  split; [exact Hlayout|]. rewrite Hlayout, !length_append.
  assert (Hlines : ∀ lines : list string,
            String.length (String.concat EmptyString lines) =
            sum_list (String.length <$> lines)).
  { induction lines as [|line lines IH]; [done|].
    rewrite concat_lines_cons, length_append, IH. done. }
  rewrite Hlines, <- list_fmap_compose. lia.
Qed.

End Rendering.

(** ** The API variant *)

Section APIProperties.
Context `{HTTPStack}.

Lemma apiStep_foldl (hostToIPs : gmap string (list IP)) (decoded : list jsonServer) :
  ∀ st,
    foldl (apiStep hostToIPs) st decoded =
    (st.1 ++ omap (apiServerOf hostToIPs) decoded,
     st.2 ++ omap (apiWarningOf hostToIPs) decoded).
Proof.
  induction decoded as [|jsonServer decoded IH]; intros [servers warnings].
  { cbn. by rewrite !app_nil_r. }
  cbn [foldl omap list_omap]. rewrite IH.
  unfold apiStep, apiServerOf, apiWarningOf. cbn [fst snd].
  destruct (default [] (hostToIPs !! Host jsonServer)) as [|ip ips];
    cbn [length Nat.eqb fst snd]; by rewrite <- ?app_assoc.
Qed.

Lemma api_partition (hostToIPs : gmap string (list IP)) (decoded : list jsonServer) :
  length (omap (apiServerOf hostToIPs) decoded) +
  length (omap (apiWarningOf hostToIPs) decoded) = length decoded.
Proof.
  induction decoded as [|jsonServer decoded IH]; [done|].
  cbn [omap list_omap]. unfold apiServerOf at 1, apiWarningOf at 1.
  destruct (default [] (hostToIPs !! Host jsonServer)); cbn [length]; lia.
Qed.

(** X13: whenever [findSurfsharkServersFromAPI] returns an error, it
    returns no server and no warning with it. *)
Theorem api_error_returns_nothing ctx client lookupIP err :
  (findSurfsharkServersFromAPI ctx client lookupIP).2 = Some err →
  (findSurfsharkServersFromAPI ctx client lookupIP).1 = ([], []).
Proof.
  unfold findSurfsharkServersFromAPI.
  destruct (http_NewRequestWithContext _ _ _) as [request [e|]]; [done|].
  destruct (http_Client_Do _ _) as [response [e|]]; [done|].
  destruct (negb _); [done|].
  destruct (json_Decode _) as [decoded [e|]]; [done|].
  destruct (Body_Close _) as [e|]; [done|].
  destruct (parallelResolve _ _ _ _ _ _) as [[hostToIPs warnings] [e|]]; [done|].
  by destruct (foldl _ _ _).
Qed.

(** X14: when the request is built and sent and the answer's status code
    is not 200, the function returns the package's status error wrapped
    in a message that carries the status text and the URL, whatever the
    body holds and without a result. *)
Theorem api_status_not_OK ctx client lookupIP request response :
  http_NewRequestWithContext ctx http_MethodGet apiURL = (request, None) →
  http_Client_Do client request = (response, None) →
  StatusCode response ≠ http_StatusOK →
  findSurfsharkServersFromAPI ctx client lookupIP =
    ([], [], Some (statusError (Status response))) ∧
  Unwrap (statusError (Status response)) = Some ErrHTTPStatusCodeNotOK ∧
  Error (statusError (Status response)) =
    Error ErrHTTPStatusCodeNotOK +:+ ": " +:+ Status response +:+ " for " +:+ apiURL.
Proof.
  intros Hrequest Hresponse Hstatus.
  unfold findSurfsharkServersFromAPI. rewrite Hrequest, Hresponse.
  apply Z.eqb_neq in Hstatus. by rewrite Hstatus.
Qed.

(** X15: when every step succeeds, the function returns, in the order of
    the decoded array and without sorting or removing repeated hosts, one
    server for each decoded entry whose host has an address in the
    resolver's result, named by the entry's country and location, and one
    warning for each other entry, a host missing from the result
    included; servers and warnings together are as many as the
    entries. *)
Theorem api_success_partition ctx client lookupIP
    request response decoded hostToIPs resolveWarnings :
  http_NewRequestWithContext ctx http_MethodGet apiURL = (request, None) →
  http_Client_Do client request = (response, None) →
  StatusCode response = http_StatusOK →
  json_Decode (Body response) = (decoded, None) →
  Body_Close (Body response) = None →
  parallelResolve ctx lookupIP (Host <$> decoded) 20 time_Second true =
    (hostToIPs, resolveWarnings, None) →
  findSurfsharkServersFromAPI ctx client lookupIP =
    (omap (apiServerOf hostToIPs) decoded,
     omap (apiWarningOf hostToIPs) decoded, None) ∧
  length (findSurfsharkServersFromAPI ctx client lookupIP).1.1 +
  length (findSurfsharkServersFromAPI ctx client lookupIP).1.2 = length decoded.
Proof.
  intros Hrequest Hresponse Hstatus Hdecode Hclose Hresolve.
  assert (Hfind : findSurfsharkServersFromAPI ctx client lookupIP =
            (omap (apiServerOf hostToIPs) decoded,
             omap (apiWarningOf hostToIPs) decoded, None)).
  { unfold findSurfsharkServersFromAPI.
    rewrite Hrequest, Hresponse, Hstatus, Z.eqb_refl. cbn [negb].
    rewrite Hdecode, Hclose, Hresolve, apiStep_foldl. done. }
  split; [exact Hfind|]. rewrite Hfind. cbn [fst snd]. apply api_partition.
Qed.

End APIProperties.

(** ** Further runs in closed environments *)

Section MoreRuns.
Import Fixture MoreFixtures.

Lemma accepted_file_keeps_host_and_warning_witness :
  ∃ before after,
    @mapRange chattyWorld RangeContents _
      (list_to_map [("a_udp.ovpn", "al-tia.prod.surfshark.com")]
       : gmap string string) =
      before ++ ("a_udp.ovpn", "al-tia.prod.surfshark.com") :: after ∧
    foldl (@extractStep chattyWorld) ([], [])
      (@mapRange chattyWorld RangeContents _
         (list_to_map [("a_udp.ovpn", "al-tia.prod.surfshark.com")]
          : gmap string string)) =
    (@extractHosts chattyWorld before ++ ["al-tia.prod.surfshark.com"] ++
     @extractHosts chattyWorld after,
     @extractWarnings chattyWorld before ++
     (if (0 <? String.length "odd file")%nat then ["odd file"] else []) ++
     @extractWarnings chattyWorld after).
Proof.
  apply (@accepted_file_keeps_host_and_warning chattyWorld);
    vm_compute; reflexivity.
Defined.

Lemma successful_run_server_count_witness :
  length (@findSurfsharkServersFromZip mixedWorld tt tt tt).1.1 =
  length (filter (λ entry : string * list IP, entry.2 ≠ [])
            (map_to_list (@strictResolve mixedWorld tt tt tt).1.1)) +
  size (@bestEffortResolve mixedWorld tt
          (st_mapping (@afterArchivePass mixedWorld tt tt tt)) tt).1.1.
Proof.
  apply (@successful_run_server_count mixedWorld tt tt tt);
    vm_compute; reflexivity.
Defined.

Lemma returned_server_has_source_witness :
  (∃ host ips,
     (@strictResolve mixedWorld tt tt tt).1.1 !! host = Some ips ∧ ips ≠ [] ∧
     IPs {| Region := "Albania"; IPs := [ip 10 0 0 1; ip 10 0 0 2] |}
       = uniqueSortedIPs ips ∧
     (Region {| Region := "Albania"; IPs := [ip 10 0 0 1; ip 10 0 0 2] |}
        = codeOf host ∨
      surfsharkSubdomainToRegion !! codeOf host =
        Some (Region {| Region := "Albania"; IPs := [ip 10 0 0 1; ip 10 0 0 2] |}))) ∨
  (∃ host ips,
     (@bestEffortResolve mixedWorld tt
        (st_mapping (@afterArchivePass mixedWorld tt tt tt)) tt).1.1 !! host
       = Some ips ∧
     {| Region := "Albania"; IPs := [ip 10 0 0 1; ip 10 0 0 2] |} =
       remainingServer (st_mapping (@afterArchivePass mixedWorld tt tt tt))
         (host, ips)).
Proof.
  apply (@returned_server_has_source mixedWorld tt tt tt).
  apply list_elem_of_In. vm_compute. left. reflexivity.
Defined.

Lemma resolved_archive_host_gets_server_witness :
  (∃ region,
     {| Region := region;
        IPs := uniqueSortedIPs [ip 10 0 0 2; ip 10 0 0 1; ip 10 0 0 2] |}
       ∈ (@findSurfsharkServersFromZip mixedWorld tt tt tt).1.1 ∧
     (region = codeOf "al-tia.prod.surfshark.com" ∨
      surfsharkSubdomainToRegion !! codeOf "al-tia.prod.surfshark.com"
        = Some region) ∧
     (surfsharkSubdomainToRegion !! codeOf "al-tia.prod.surfshark.com" = None →
      region = codeOf "al-tia.prod.surfshark.com")) ∧
  (GoStrings.HasSuffix "al-tia.prod.surfshark.com" domainSuffix = false →
   codeOf "al-tia.prod.surfshark.com" = "al-tia.prod.surfshark.com").
Proof.
  apply (@resolved_archive_host_gets_server mixedWorld tt tt tt);
    [vm_compute; reflexivity.. | discriminate].
Defined.


Lemma table_pass_server_names_witness :
  (∃ region,
     surfsharkSubdomainToRegion !! codeOf "at-vie.prod.surfshark.com" = Some region ∧
     "at-vie.prod.surfshark.com" = codeOf "at-vie.prod.surfshark.com" +:+ domainSuffix ∧
     {| Region := region; IPs := uniqueSortedIPs [ip 10 0 1 1] |}
       ∈ (@findSurfsharkServersFromZip strayWorld tt tt tt).1.1) ∧
  {| Region := EmptyString; IPs := uniqueSortedIPs [ip 10 9 9 9] |}
    ∈ (@findSurfsharkServersFromZip strayWorld tt tt tt).1.1.
Proof.
  split.
  - apply (proj1 (@table_pass_server_names strayWorld tt tt tt
                    "at-vie.prod.surfshark.com" [ip 10 0 1 1]
                    ltac:(vm_compute; reflexivity) ltac:(vm_compute; reflexivity)
                    ltac:(vm_compute; reflexivity))).
    by_computation.
  - apply (proj2 (@table_pass_server_names strayWorld tt tt tt
                    "stray.example.org" [ip 10 9 9 9]
                    ltac:(vm_compute; reflexivity) ltac:(vm_compute; reflexivity)
                    ltac:(vm_compute; reflexivity))).
    vm_compute; reflexivity.
Defined.

Lemma fetch_failure_leaves_updater_witness :
  @findSurfsharkServersFromZip unreachableWorld tt tt tt =
    ([], [], Some fetchFailure) ∧
  @updateSurfshark unreachableWorld (freshUpdater unreachableWorld true true tt tt) tt =
    (freshUpdater unreachableWorld true true tt tt,
     Some (fmt_Errorf_w "cannot update Surfshark servers: " fetchFailure)).
Proof.
  apply (@fetch_failure_leaves_updater unreachableWorld
           (freshUpdater unreachableWorld true true tt tt) tt fetchFailure).
  vm_compute; reflexivity.
Defined.

Lemma api_error_returns_nothing_witness :
  (@findSurfsharkServersFromAPI apiWorld unavailableStack tt tt tt).1 = ([], []).
Proof.
  apply (@api_error_returns_nothing apiWorld unavailableStack tt tt tt
           (@statusError apiWorld unavailableStack "503 Service Unavailable")).
  vm_compute; reflexivity.
Defined.

Lemma api_status_not_OK_witness :
  @findSurfsharkServersFromAPI apiWorld unavailableStack tt tt tt =
    ([], [], Some (@statusError apiWorld unavailableStack "503 Service Unavailable")) ∧
  Unwrap (@statusError apiWorld unavailableStack "503 Service Unavailable")
    = Some notOK ∧
  Error (@statusError apiWorld unavailableStack "503 Service Unavailable") =
    Error notOK +:+ ": " +:+ "503 Service Unavailable" +:+ " for " +:+ apiURL.
Proof.
  apply (@api_status_not_OK apiWorld unavailableStack tt tt tt tt
           {| StatusCode := 503; Status := "503 Service Unavailable"; Body := tt |});
    [reflexivity | reflexivity | discriminate].
Defined.

Lemma api_success_partition_witness :
  @findSurfsharkServersFromAPI apiWorld okStack tt tt tt =
    (omap (apiServerOf mixedDNS) clusters,
     omap (@apiWarningOf apiWorld mixedDNS) clusters, None) ∧
  length (@findSurfsharkServersFromAPI apiWorld okStack tt tt tt).1.1 +
  length (@findSurfsharkServersFromAPI apiWorld okStack tt tt tt).1.2 =
  length clusters.
Proof.
  apply (@api_success_partition apiWorld okStack tt tt tt tt
           {| StatusCode := 200; Status := "200 OK"; Body := tt |}
           clusters mixedDNS []); reflexivity.
Defined.

(** The API variant on three decoded entries, two of them for the same
    host: both are kept, in the order of the array. *)
Example api_run :
  @findSurfsharkServersFromAPI apiWorld okStack tt tt tt =
  ([{| Region := "Albania Tirana"; IPs := [ip 10 0 0 1; ip 10 0 0 2] |};
    {| Region := "Albania Tirana"; IPs := [ip 10 0 0 1; ip 10 0 0 2] |}],
   ["no IP address found for host " +:+ quote "gone.prod.surfshark.com"],
   None).
Proof. vm_compute; reflexivity. Qed.

End MoreRuns.
